(** * ttlcache: a shallow embedding of [cache.go] and its specification

    The Go package keeps a [map[string]*Item] behind a [sync.RWMutex],
    optionally expiring entries.  The embedding below follows [cache.go]
    function by function:

    - a [time.Duration] and an instant of [time.Now()] are integers counting
      nanoseconds ([Z]);
    - an [interface{}] payload is [option V] for an arbitrary type [V], with
      [None] standing for Go's [nil];
    - the entry map is a [gmap string Item]; Go's nil map (the zero value of
      the field) is [None], and writing into it is the one place where the
      package can panic;
    - every method is a computation over a [World]: the [Cache] struct
      together with the ticker goroutines started for it.  A clock reading
      [now] is passed to the methods that call [time.Now()]; one method call
      observes one instant.

    The map stores pointers, and every pointer stored is a fresh [&Item{...}]
    created by [Set] or [SetTTL], so no two keys alias one [Item]: mutating
    an item in place through [cache.items[key]] is an update of the binding
    of [key]. *)

From Stdlib Require Import ZArith Lia.
From stdpp Require Import gmap strings list fin_maps.

Local Open Scope Z_scope.

(** ** Durations *)

Abbreviation Duration := Z (only parsing).
Abbreviation Instant := Z (only parsing).

(** [time.Millisecond] and [time.Second], in nanoseconds. *)
Definition Millisecond : Duration := 1000000.
Definition Second : Duration := 1000000000.

(** ** Outcome of a method call: a value, or a Go runtime panic *)

Inductive result (A : Type) : Type :=
| Ok (a : A)
| Panic (msg : string).
Arguments Ok {A} a.
Arguments Panic {A} msg.

Section Cache.

Context {V : Type}.

(** ** Items *)

(** Modelled from the spec: the [Item] struct ([item.go] is not part of the
    sources at hand).  [cache.go] only shows the field [data]; the
    expiration deadline is the spec's [expiresAt], [None] when it was never
    set (the zero value a composite literal [&Item{data: data}] leaves). *)
Record Item : Type := mkItem {
  data : option V;
  expiresAt : option Instant
}.

(** Modelled from the spec: [Item.touch], "sets expiresAt = now + ttl" and
    mutates nothing else. *)
Definition touch (ttl : Duration) (now : Instant) (item : Item) : Item :=
  {| data := data item; expiresAt := Some (now + ttl) |}.

(** Modelled from the spec: [Item.expired], "true iff expiresAt is
    non-zero/set and strictly in the past relative to now". *)
Definition expired (now : Instant) (item : Item) : bool :=
  match expiresAt item with
  | Some t => t <? now
  | None => false
  end.

(** ** The cache *)

Record Cache : Type := mkCache {
  ttl : Duration;
  items : option (gmap string Item);
  isTTL : bool
}.

(** The cache and the periods of the ticker goroutines that
    [startTTLCleanupTimer] has spawned for it, oldest first. *)
Record World : Type := mkWorld {
  cache : Cache;
  reapers : list Duration
}.

(** Go's map primitives, on a possibly nil map. *)

(** [item, exists := m[key]] *)
Definition map_index (m : option (gmap string Item)) (key : string) : option Item :=
  match m with
  | Some g => g !! key
  | None => None
  end.

(** [len(m)] *)
Definition map_len (m : option (gmap string Item)) : Z :=
  match m with
  | Some g => Z.of_nat (size g)
  | None => 0
  end.

(** [delete(m, key)] *)
Definition map_delete (m : option (gmap string Item)) (key : string)
  : option (gmap string Item) :=
  match m with
  | Some g => Some (delete key g)
  | None => None
  end.

(** [m[key] = item] *)
Definition map_assign (m : option (gmap string Item)) (key : string) (item : Item)
  : result (option (gmap string Item)) :=
  match m with
  | Some g => Ok (Some (<[key := item]> g))
  | None => Panic "assignment to entry in nil map"
  end.

(** [*m[key] = item]: a write through the pointer the map holds at [key];
    the map itself is not written. *)
Definition map_poke (m : option (gmap string Item)) (key : string) (item : Item)
  : option (gmap string Item) :=
  match m with
  | Some g => Some (<[key := item]> g)
  | None => None
  end.

(** [for key, item := range m { body }], the body acting on the map being
    ranged over: the keys present when the loop starts are visited in some
    order ([map_to_list]), each with the item the map holds for it at that
    moment; a key the body has removed in the meantime is not produced. *)
Definition map_range (body : string → Item → gmap string Item → gmap string Item)
    (m : option (gmap string Item)) : option (gmap string Item) :=
  match m with
  | Some g =>
      Some (foldr (λ kv acc,
                     match acc !! kv.1 with
                     | Some item => body kv.1 item acc
                     | None => acc
                     end) g (map_to_list g))
  | None => None
  end.

(** ** Computations over the world *)

Definition M (A : Type) : Type := World → result (A * World).

Definition ret {A} (a : A) : M A := λ w, Ok (a, w).

Definition bind {A B} (c : M A) (k : A → M B) : M B :=
  λ w, match c w with
       | Ok (a, w') => k a w'
       | Panic msg => Panic msg
       end.

Definition get_cache : M Cache := λ w, Ok (cache w, w).

Definition put_cache (c : Cache) : M unit :=
  λ w, Ok (tt, {| cache := c; reapers := reapers w |}).

(** [go func() { for { <-ticker; cache.ttlCleanup() } }()] with
    [ticker := time.Tick(duration)] *)
Definition spawn_ticker (duration : Duration) : M unit :=
  λ w, Ok (tt, {| cache := cache w; reapers := reapers w ++ [duration] |}).

(** Lifting a map write, which may panic. *)
Definition lift {A} (r : result A) : M A :=
  λ w, match r with
       | Ok a => Ok (a, w)
       | Panic msg => Panic msg
       end.

Notation "'let*' x ':=' c1 'in' c2" := (bind c1 (λ x, c2))
  (at level 10, x name, c1 at level 100, c2 at level 200).
Notation "'do' c1 'then' c2" := (bind c1 (λ _, c2))
  (at level 10, c1 at level 100, c2 at level 200).

Definition set_items (c : Cache) (m : option (gmap string Item)) : Cache :=
  {| ttl := ttl c; items := m; isTTL := isTTL c |}.

Definition set_isTTL (c : Cache) (b : bool) : Cache :=
  {| ttl := ttl c; items := items c; isTTL := b |}.

(** [startTTLCleanupTimer] *)
Definition startTTLCleanupTimer : M unit :=
  let* c := get_cache in
  if isTTL c then
    let duration := ttl c in
    let duration := if duration <? Millisecond then Millisecond else duration in
    spawn_ticker duration
  else ret tt.

(** [Cache.Set] ([Set] is a reserved word here) *)
Definition Cache_Set (key : string) (d : option V) (now : Instant) : M unit :=
  let* c := get_cache in
  let item := {| data := d; expiresAt := None |} in
  let item := if isTTL c then touch (ttl c) now item else item in
  let* m := lift (map_assign (items c) key item) in
  put_cache (set_items c m).

(** [Cache.SetTTL] *)
Definition SetTTL (key : string) (d : option V) (ttl' : Duration) (now : Instant) : M unit :=
  let* c := get_cache in
  do (if negb (isTTL c) then
        do put_cache (set_isTTL c true) then
        startTTLCleanupTimer
      else ret tt) then
  let* c := get_cache in
  let item := {| data := d; expiresAt := None |} in
  let item := touch ttl' now item in
  let* m := lift (map_assign (items c) key item) in
  put_cache (set_items c m).

(** [Cache.Get]: the pair [(data, found)].  In TTL mode a hit touches the
    item the map points to. *)
Definition Get (key : string) (now : Instant) : M (option V * bool) :=
  let* c := get_cache in
  let lookup := map_index (items c) key in
  if isTTL c then
    match lookup with
    | Some item =>
        if expired now item then ret (None, false)
        else
          let item := touch (ttl c) now item in
          do put_cache (set_items c (map_poke (items c) key item)) then
          ret (data item, true)
    | None => ret (None, false)
    end
  else
    match lookup with
    | Some item => ret (data item, true)
    | None => ret (None, false)
    end.

(** [Cache.Count] *)
Definition Count : M Z :=
  let* c := get_cache in
  let count := map_len (items c) in
  ret count.

(** [Cache.Clear] *)
Definition Clear : M unit :=
  let* c := get_cache in
  put_cache (set_items c (map_range (λ key _ g, delete key g) (items c))).

(** [Cache.ttlCleanup] *)
Definition ttlCleanup (now : Instant) : M unit :=
  let* c := get_cache in
  if isTTL c then
    put_cache (set_items c
      (map_range (λ key item g, if expired now item then delete key g else g)
                 (items c)))
  else ret tt.

(** [Cache.Delete] *)
Definition Delete (key : string) : M unit :=
  let* c := get_cache in
  match map_index (items c) key with
  | Some _ => put_cache (set_items c (map_delete (items c) key))
  | None => ret tt
  end.

(** [NewTTLCache] *)
Definition NewTTLCache (duration : Duration) : World :=
  let cache := {| ttl := duration; items := Some ∅; isTTL := true |} in
  match startTTLCleanupTimer {| cache := cache; reapers := [] |} with
  | Ok (_, w) => w
  | Panic _ => {| cache := cache; reapers := [] |}
  end.

(** [NewCache]: the [ttl] field is left at its zero value. *)
Definition NewCache : World :=
  {| cache := {| ttl := 0; items := Some ∅; isTTL := false |}; reapers := [] |}.

(** ** Traces of calls *)

(** The calls a client can make, and [OTick], the call to [ttlCleanup] that a
    reaper goroutine makes when its ticker fires.  Instants along a trace
    are not required to increase: what is proved of all traces holds of
    those a real clock produces. *)
Inductive Op : Type :=
| OSet (key : string) (d : option V)
| OSetTTL (key : string) (d : option V) (ttl' : Duration)
| OGet (key : string)
| OCount
| OClear
| ODelete (key : string)
| OTick.

Inductive Ret : Type :=
| RUnit
| RGet (d : option V) (found : bool)
| RCount (n : Z).

(** One call at the instant [now]. *)
Definition exec (now : Instant) (op : Op) : M Ret :=
  match op with
  | OSet key d => do Cache_Set key d now then ret RUnit
  | OSetTTL key d ttl' => do SetTTL key d ttl' now then ret RUnit
  | OGet key => let* r := Get key now in ret (RGet r.1 r.2)
  | OCount => let* n := Count in ret (RCount n)
  | OClear => do Clear then ret RUnit
  | ODelete key => do Delete key then ret RUnit
  | OTick => do ttlCleanup now then ret RUnit
  end.

(** A sequence of timed calls, oldest first. *)
Fixpoint run (tr : list (Instant * Op)) (w : World) : result World :=
  match tr with
  | [] => Ok w
  | (now, op) :: tr' =>
      match exec now op w with
      | Ok (_, w') => run tr' w'
      | Panic msg => Panic msg
      end
  end.

(** The worlds a program can reach from a constructor [init]. *)
Inductive reachable_from (init : World) : World → Prop :=
| reach_init : reachable_from init init
| reach_step w now op r w' :
    reachable_from init w →
    exec now op w = Ok (r, w') →
    reachable_from init w'.

Definition reachable (w : World) : Prop :=
  reachable_from NewCache w ∨ ∃ duration, reachable_from (NewTTLCache duration) w.

(** ** The mode invariant *)

(** No entry of the map carries an expiration. *)
Definition unset_everywhere (w : World) : Prop :=
  ∀ k item, map_index (items (cache w)) k = Some item → expiresAt item = None.

(** Every entry of the map carries an expiration. *)
Definition set_everywhere (w : World) : Prop :=
  ∀ k item, map_index (items (cache w)) k = Some item → is_Some (expiresAt item).

Definition mode_inv (w : World) : Prop :=
  if isTTL (cache w) then set_everywhere w else unset_everywhere w.

End Cache.

Arguments Item : clear implicits.
Arguments Cache : clear implicits.
Arguments World : clear implicits.
Arguments Op : clear implicits.
Arguments Ret : clear implicits.

(** * Sample worlds *)

(** A TTL cache of one second holding ["x"%string], written at instant 0. *)
Definition ttl_world : World string :=
  {| cache := {| ttl := Second;
                 items := Some (<["x"%string := {| data := Some "1"%string; expiresAt := Some Second |}]> ∅);
                 isTTL := true |};
     reapers := [Second] |}.

(** An unbounded cache holding ["a"%string]. *)
Definition unbounded_world : World string :=
  {| cache := {| ttl := 0;
                 items := Some (<["a"%string := {| data := Some "1"%string; expiresAt := None |}]> ∅);
                 isTTL := false |};
     reapers := [] |}.

(** [unbounded_world] after [SetTTL("b"%string, "2"%string, time.Second)] at instant 1. *)
Definition switched_world : World string :=
  {| cache := {| ttl := 0;
                 items := Some (<["b"%string := {| data := Some "2"%string; expiresAt := Some (1 + Second) |}]>
                                (<["a"%string := {| data := Some "1"%string; expiresAt := None |}]> ∅));
                 isTTL := true |};
     reapers := [Millisecond] |}.

(** The zero value [Cache{}], which no constructor returns. *)
Definition zero_world : World string :=
  {| cache := {| ttl := 0; items := None; isTTL := false |}; reapers := [] |}.

(** [unbounded_world] after [Set("k", "v")]. *)
Definition written_world : World string :=
  {| cache := {| ttl := 0;
                 items := Some (<["k"%string := {| data := Some "v"%string; expiresAt := None |}]>
                                (<["a"%string := {| data := Some "1"%string; expiresAt := None |}]> ∅));
                 isTTL := false |};
     reapers := [] |}.

(** [ttl_world] after a [Get] of ["x"] at 800ms. *)
Definition touched_world : World string :=
  {| cache := {| ttl := Second;
                 items := Some (<["x"%string := {| data := Some "1"%string;
                                                   expiresAt := Some (800 * Millisecond + Second) |}]> ∅);
                 isTTL := true |};
     reapers := [Second] |}.

(** * The locking discipline

    What each method of [cache.go] does with [cache.mutex] and with the
    shared map, as a sequence of atomic actions, and the interleavings of
    several goroutines running such methods.  A [sync.RWMutex] is held by
    any number of readers or by one writer. *)

Inductive Action : Type :=
| Lock | Unlock | RLock | RUnlock      (* on [cache.mutex] *)
| MapRead | MapWrite                   (* on [cache.items] *)
| ItemRead | ItemWrite.                (* on an item the map points to *)

(** The methods; a loop over the map carries its number of iterations. *)
Inductive Method : Type :=
| mSet | mSetTTL | mGet | mCount
| mClear (n : nat) | mTtlCleanup (n : nat)
| mDelete.

(** A [defer]red unlock runs when the method returns, hence last.  A branch
    that a call may skip ([Get] touching the item, [ttlCleanup] deleting the
    key) is listed: actions taken only add to what must be protected. *)
Definition program (m : Method) : list Action :=
  match m with
  | mSet => [Lock; MapWrite; Unlock]
  | mSetTTL => [Lock; MapWrite; Unlock]
  | mGet => [RLock; MapRead; ItemRead; ItemWrite; RUnlock]
  | mCount => [RLock; MapRead; RUnlock]
  | mClear n => [Lock] ++ concat (replicate n [MapRead; MapWrite]) ++ [Unlock]
  | mTtlCleanup n =>
      [Lock] ++ concat (replicate n [MapRead; ItemRead; MapWrite]) ++ [Unlock]
  | mDelete => [MapRead; MapWrite]
  end.

Inductive Held : Type := Free | Reading | Writing.

#[global] Instance Held_eq_dec : EqDecision Held.
Proof. solve_decision. Defined.

Record Thread : Type := mkThread {
  meth : Method;
  held : Held;
  todo : list Action
}.

(** The mutex (a writer flag and a reader count) and the goroutines. *)
Record Pool : Type := mkPool {
  writer : bool;
  readers : nat;
  threads : list Thread
}.

Definition spawn (m : Method) : Thread :=
  {| meth := m; held := Free; todo := program m |}.

Definition start (ms : list Method) : Pool :=
  {| writer := false; readers := 0; threads := spawn <$> ms |}.

Definition is_map_access (a : Action) : bool :=
  match a with
  | MapRead | MapWrite => true
  | _ => false
  end.

Definition is_lock_action (a : Action) : bool :=
  match a with
  | Lock | Unlock | RLock | RUnlock => true
  | _ => false
  end.

(** Goroutine [i] performs its next action; [None] when it has returned or
    is blocked on the mutex.  Only what the mutex guarantees is enforced
    here (one writer or many readers), so every interleaving of the real
    mutex is one of these: the relation serves the exclusion property.  How
    [sync.RWMutex] queues readers behind a waiting writer is modelled
    separately, by [go_step] below. *)
Definition step (i : nat) (p : Pool) : option Pool :=
  match threads p !! i with
  | Some t =>
      match todo t with
      | [] => None
      | a :: rest =>
          let moved h := <[i := {| meth := meth t; held := h; todo := rest |}]> (threads p) in
          match a with
          | Lock =>
              if writer p || negb (Nat.eqb (readers p) 0) then None
              else Some {| writer := true; readers := readers p;
                           threads := moved Writing |}
          | Unlock =>
              Some {| writer := false; readers := readers p;
                      threads := moved Free |}
          | RLock =>
              if writer p then None
              else Some {| writer := writer p; readers := S (readers p);
                           threads := moved Reading |}
          | RUnlock =>
              Some {| writer := writer p; readers := Nat.pred (readers p);
                      threads := moved Free |}
          | _ =>
              Some {| writer := writer p; readers := readers p;
                      threads := moved (held t) |}
          end
      end
  | None => None
  end.

(** A schedule names the goroutine that moves at each step. *)
Fixpoint schedule (sched : list nat) (p : Pool) : option Pool :=
  match sched with
  | [] => Some p
  | i :: sched' =>
      match step i p with
      | Some p' => schedule sched' p'
      | None => None
      end
  end.

Inductive pool_reachable (ms : list Method) : Pool → Prop :=
| pool_start : pool_reachable ms (start ms)
| pool_step p i p' :
    pool_reachable ms p → step i p = Some p' → pool_reachable ms p'.

(** The next action of goroutine [i] is an access to the map. *)
Definition at_map_access (p : Pool) (i : nat) (t : Thread) : Prop :=
  threads p !! i = Some t ∧
  ∃ a rest, todo t = a :: rest ∧ is_map_access a = true.

(** No goroutine other than [i] holds the mutex in mode [h]. *)
Definition others_not (p : Pool) (i : nat) (h : Held) : Prop :=
  ∀ j t', j ≠ i → threads p !! j = Some t' → held t' ≠ h.

(** The mode in which a method takes the mutex, read off its program. *)
Definition guard (m : Method) : Held :=
  match program m with
  | Lock :: _ => Writing
  | RLock :: _ => Reading
  | _ => Free
  end.

Definition lock_free (l : list Action) : Prop :=
  Forall (λ a, is_lock_action a = false) l.

(** Where a goroutine stands in its method: not started, returned, or inside
    the section its mutex mode protects; or running a method that never
    takes the mutex. *)
Definition thread_inv (t : Thread) : Prop :=
  match held t with
  | Free =>
      todo t = program (meth t) ∨ todo t = [] ∨
      (guard (meth t) = Free ∧ lock_free (todo t))
  | Writing =>
      guard (meth t) = Writing ∧
      ∃ accs, todo t = accs ++ [Unlock] ∧ lock_free accs
  | Reading =>
      guard (meth t) = Reading ∧
      ∃ accs, todo t = accs ++ [RUnlock] ∧ lock_free accs
  end.

(** How many goroutines hold the mutex in mode [h]. *)
Definition holders (h : Held) (ts : list Thread) : nat :=
  length (filter (λ t, held t = h) ts).

Definition pool_inv (p : Pool) : Prop :=
  holders Writing (threads p) = (if writer p then 1 else 0)%nat ∧
  holders Reading (threads p) = readers p ∧
  (writer p = true → readers p = 0%nat) ∧
  Forall thread_inv (threads p).

(** The methods that write the map under the mutex, and those that read it. *)
Definition is_mutator (m : Method) : bool :=
  match m with
  | mSet | mSetTTL | mClear _ | mTtlCleanup _ => true
  | _ => false
  end.

Definition is_reader (m : Method) : bool :=
  match m with
  | mGet | mCount => true
  | _ => false
  end.

(** * Notions for traces and schedules *)

Section Notions.

Context {V : Type}.

(** A trace run as by [run], keeping what each call returned. *)
Fixpoint run_log (tr : list (Instant * Op V)) (w : World V)
  : result (list (Ret V) * World V) :=
  match tr with
  | [] => Ok ([], w)
  | (now, op) :: tr' =>
      match exec now op w with
      | Ok (r, w') =>
          match run_log tr' w' with
          | Ok (rs, w'') => Ok (r :: rs, w'')
          | Panic msg => Panic msg
          end
      | Panic msg => Panic msg
      end
  end.

(** The calls that assign into the map: [Set] and [SetTTL]. *)
Definition is_write (op : Op V) : bool :=
  match op with
  | OSet _ _ | OSetTTL _ _ _ => true
  | _ => false
  end.

(** The calls that assign to [key]. *)
Definition writes_key (op : Op V) (key : string) : bool :=
  match op with
  | OSet k _ | OSetTTL k _ _ => bool_decide (k = key)
  | _ => false
  end.

(** Lookups, size queries and reaper ticks. *)
Definition is_passive (op : Op V) : bool :=
  match op with
  | OGet _ | OCount | OTick => true
  | _ => false
  end.

(** The payload of the latest [Set] or [SetTTL] of [key] along a trace,
    [acc] if there is none. *)
Fixpoint last_written (key : string) (tr : list (Instant * Op V))
    (acc : option (option V)) : option (option V) :=
  match tr with
  | [] => acc
  | (_, op) :: tr' =>
      last_written key tr'
        (match op with
         | OSet k d | OSetTTL k d _ => if bool_decide (k = key) then Some d else acc
         | _ => acc
         end)
  end.

(** A trace that keeps the entry of [key] alive in a cache of default TTL
    [ttl0], when the entry's deadline is [e] at the start: every [Get] of
    [key] and every tick comes no later than the current deadline, a [Get]
    of [key] moves the deadline to its instant plus [ttl0], and [key] is
    neither overwritten, deleted nor cleared. *)
Fixpoint kept_alive (ttl0 : Duration) (key : string) (e : Instant)
    (tr : list (Instant * Op V)) : bool :=
  match tr with
  | [] => true
  | (now, op) :: tr' =>
      match op with
      | OGet k =>
          if bool_decide (k = key)
          then (now <=? e) && kept_alive ttl0 key (now + ttl0) tr'
          else kept_alive ttl0 key e tr'
      | OTick => (now <=? e) && kept_alive ttl0 key e tr'
      | OCount => kept_alive ttl0 key e tr'
      | OSet k _ | OSetTTL k _ _ | ODelete k =>
          negb (bool_decide (k = key)) && kept_alive ttl0 key e tr'
      | OClear => false
      end
  end.

(** The deadline of [key] at the end of such a trace. *)
Fixpoint final_deadline (ttl0 : Duration) (key : string) (e : Instant)
    (tr : list (Instant * Op V)) : Instant :=
  match tr with
  | [] => e
  | (now, op) :: tr' =>
      match op with
      | OGet k =>
          if bool_decide (k = key)
          then final_deadline ttl0 key (now + ttl0) tr'
          else final_deadline ttl0 key e tr'
      | _ => final_deadline ttl0 key e tr'
      end
  end.

End Notions.

(** * The mutex as [sync.RWMutex] implements it

    For progress it matters when a goroutine blocks.  [RWMutex.Lock] first
    takes the inner mutex [rw.w] (one pending or active writer at a time),
    announces itself, and waits until the readers active at that moment have
    left.  [RWMutex.RLock] succeeds at once when no writer is pending or
    active, and otherwise parks the reader until that writer's [Unlock],
    which admits all the parked readers together before it releases [rw.w].
    Calling [Unlock] or [RUnlock] without holding the mutex is a fatal error
    of the runtime; no method of the cache does so. *)

Inductive Status : Type :=
| Idle        (* holds nothing, waits for nothing *)
| Parked      (* inside [RLock], behind a pending or active writer *)
| Draining    (* inside [Lock], holding [rw.w], waiting for readers to leave *)
| Reader
| Writer.

#[global] Instance Status_eq_dec : EqDecision Status.
Proof. solve_decision. Defined.

#[global] Instance Action_eq_dec : EqDecision Action.
Proof. solve_decision. Defined.

Record Goroutine : Type := mkGoroutine {
  g_meth : Method;
  g_status : Status;
  g_todo : list Action
}.

Record Runtime : Type := mkRuntime {
  w_holder : option nat;        (* who holds [rw.w]: the pending or active writer *)
  active : nat;                 (* readers holding the mutex *)
  goroutines : list Goroutine
}.

Definition go (m : Method) : Goroutine :=
  {| g_meth := m; g_status := Idle; g_todo := program m |}.

Definition boot (ms : list Method) : Runtime :=
  {| w_holder := None; active := 0; goroutines := go <$> ms |}.

Definition count_status (s : Status) (gs : list Goroutine) : nat :=
  length (filter (λ g, g_status g = s) gs).

(** A parked reader is admitted: its [RLock] returns. *)
Definition wake (g : Goroutine) : Goroutine :=
  match g_status g with
  | Parked => {| g_meth := g_meth g; g_status := Reader; g_todo := tail (g_todo g) |}
  | _ => g
  end.

(** Goroutine [i] moves; [None] when it has returned or is blocked. *)
Definition go_step (i : nat) (r : Runtime) : option Runtime :=
  match goroutines r !! i with
  | None => None
  | Some g =>
      let moved s td :=
        <[i := {| g_meth := g_meth g; g_status := s; g_todo := td |}]> (goroutines r) in
      match g_todo g with
      | [] => None
      | a :: rest =>
          match a, g_status g with
          | Lock, Idle =>
              match w_holder r with
              | Some _ => None
              | None =>
                  if Nat.eqb (active r) 0
                  then Some {| w_holder := Some i; active := active r;
                               goroutines := moved Writer rest |}
                  else Some {| w_holder := Some i; active := active r;
                               goroutines := moved Draining (a :: rest) |}
              end
          | Lock, Draining =>
              if Nat.eqb (active r) 0
              then Some {| w_holder := w_holder r; active := active r;
                           goroutines := moved Writer rest |}
              else None
          | Unlock, Writer =>
              Some {| w_holder := None;
                      active := active r + count_status Parked (goroutines r);
                      goroutines := wake <$> moved Idle rest |}
          | RLock, Idle =>
              match w_holder r with
              | Some _ =>
                  Some {| w_holder := w_holder r; active := active r;
                          goroutines := moved Parked (a :: rest) |}
              | None =>
                  Some {| w_holder := None; active := S (active r);
                          goroutines := moved Reader rest |}
              end
          | RUnlock, Reader =>
              Some {| w_holder := w_holder r; active := Nat.pred (active r);
                      goroutines := moved Idle rest |}
          | (MapRead | MapWrite | ItemRead | ItemWrite), (Idle | Reader | Writer) =>
              Some {| w_holder := w_holder r; active := active r;
                      goroutines := moved (g_status g) rest |}
          | _, _ => None
          end
      end
  end.

Fixpoint go_schedule (sched : list nat) (r : Runtime) : option Runtime :=
  match sched with
  | [] => Some r
  | i :: sched' =>
      match go_step i r with
      | Some r' => go_schedule sched' r'
      | None => None
      end
  end.

Inductive go_reachable (ms : list Method) : Runtime → Prop :=
| go_boot : go_reachable ms (boot ms)
| go_next r i r' :
    go_reachable ms r → go_step i r = Some r' → go_reachable ms r'.

(** The methods that take the mutex: all but [Delete]. *)
Definition is_guarded (m : Method) : bool :=
  match guard m with
  | Free => false
  | _ => true
  end.

(** Every goroutine has returned. *)
Definition returned (r : Runtime) : Prop :=
  ∀ i g, goroutines r !! i = Some g → g_todo g = [].

(** A bound on the moves a goroutine can still make: two per action, one of
    them spent once it is parked or draining. *)
Definition weight (g : Goroutine) : nat :=
  2 * length (g_todo g) -
  match g_status g with
  | Parked | Draining => 1
  | _ => 0
  end.

Definition budget (r : Runtime) : nat := sum_list (weight <$> goroutines r).

(** Where a goroutine of a guarded method stands. *)
Definition g_inv (g : Goroutine) : Prop :=
  is_guarded (g_meth g) = true ∧
  g_todo g ⊆ program (g_meth g) ∧
  match g_status g with
  | Idle => g_todo g = program (g_meth g) ∨ g_todo g = []
  | Parked =>
      guard (g_meth g) = Reading ∧
      ∃ accs, g_todo g = RLock :: accs ++ [RUnlock] ∧ lock_free accs
  | Draining =>
      guard (g_meth g) = Writing ∧
      ∃ accs, g_todo g = Lock :: accs ++ [Unlock] ∧ lock_free accs
  | Reader =>
      guard (g_meth g) = Reading ∧
      ∃ accs, g_todo g = accs ++ [RUnlock] ∧ lock_free accs
  | Writer =>
      guard (g_meth g) = Writing ∧
      ∃ accs, g_todo g = accs ++ [Unlock] ∧ lock_free accs
  end.

Definition rt_inv (r : Runtime) : Prop :=
  Forall g_inv (goroutines r) ∧
  active r = count_status Reader (goroutines r) ∧
  match w_holder r with
  | None =>
      (count_status Writer (goroutines r) + count_status Draining (goroutines r)
       + count_status Parked (goroutines r) = 0)%nat
  | Some _ =>
      (count_status Writer (goroutines r)
       + count_status Draining (goroutines r) = 1)%nat
  end ∧
  ((1 ≤ count_status Writer (goroutines r))%nat → active r = 0%nat).

(** A reader holds the mutex, a writer waits for it to leave, and a second
    reader is parked behind the writer. *)
Definition contended_runtime : Runtime :=
  {| w_holder := Some 1%nat; active := 1;
     goroutines :=
       [ {| g_meth := mGet; g_status := Reader;
            g_todo := [MapRead; ItemRead; ItemWrite; RUnlock] |};
         {| g_meth := mSet; g_status := Draining; g_todo := program mSet |};
         {| g_meth := mCount; g_status := Parked; g_todo := program mCount |} ] |}.

(** * Properties *)

Section Properties.

Context {V : Type}.
Implicit Types (w : World V) (c : Cache V) (g : gmap string (Item V))
  (item : Item V) (key k : string) (now : Z) (op : Op V).

(** Unfolds one method call down to the map primitives. *)
Ltac unfold_call :=
  unfold exec, Cache_Set, SetTTL, Get, Count, Clear, Delete, ttlCleanup,
    startTTLCleanupTimer, spawn_ticker, bind, lift, ret, get_cache,
    put_cache, set_items, set_isTTL in *;
  simpl in *.

(** ** The range loops *)

(** A loop whose body removes the visited key when [P] holds of it, and does
    nothing otherwise, started from [acc] over the key list [l]. *)
Lemma range_fold_lookup (P : string → Item V → bool) (l : list (string * Item V)) (acc : gmap string (Item V)) k :
  foldr (λ kv a,
           match a !! kv.1 with
           | Some item => if P kv.1 item then delete kv.1 a else a
           | None => a
           end) acc l !! k
  = match acc !! k with
    | Some item => if bool_decide (k ∈ l.*1) && P k item then None else Some item
    | None => None
    end.
Proof.
  induction l as [|[k0 v0] l IH]; rewrite ?fmap_cons; cbn [foldr fst].
  - destruct (acc !! k); done.
  - set (a := foldr _ acc l) in *.
    destruct (decide (k = k0)) as [->|Hne].
    + rewrite bool_decide_eq_true_2 by set_solver. simpl.
      destruct (a !! k0) as [item|] eqn:Ha.
      * destruct (acc !! k0) as [item'|]; [|done].
        destruct (bool_decide _ && P k0 item') eqn:E; [done|].
        injection IH as ->. destruct (P k0 item') eqn:HP.
        -- by rewrite lookup_delete_eq.
        -- done.
      * rewrite Ha. destruct (acc !! k0) as [item'|]; [|done].
        destruct (P k0 item'); [done|]. by rewrite andb_false_r in IH.
    + assert (bool_decide (k ∈ k0 :: l.*1) = bool_decide (k ∈ l.*1)) as ->.
      { apply bool_decide_ext. rewrite elem_of_cons. tauto. }
      rewrite <- IH.
      destruct (a !! k0) as [item|]; [|done].
      destruct (P k0 item); [|done].
      by rewrite lookup_delete_ne.
Qed.

Lemma map_range_lookup (P : string → Item V → bool) g k :
  map_index
    (map_range (λ key item a, if P key item then delete key a else a) (Some g)) k
  = match g !! k with
    | Some item => if P k item then None else Some item
    | None => None
    end.
Proof.
  unfold map_range, map_index. rewrite range_fold_lookup.
  destruct (g !! k) as [item|] eqn:Hk; [|done].
  rewrite bool_decide_eq_true_2; [done|].
  apply list_elem_of_fmap. exists (k, item). split; [done|].
  by apply elem_of_map_to_list.
Qed.

Lemma map_range_filter (P : string → Item V → bool) g :
  map_range (λ key item a, if P key item then delete key a else a) (Some g)
  = Some (filter (λ kv, P kv.1 kv.2 = false) g).
Proof.
  pose proof (map_range_lookup P g) as H.
  unfold map_range in *. f_equal. apply map_eq. intros k.
  specialize (H k). simpl in H. rewrite H.
  destruct (g !! k) as [item|] eqn:Hk.
  - destruct (P k item) eqn:HP; symmetry.
    + apply map_lookup_filter_None. right. intros x Hx. simpl. congruence.
    + apply map_lookup_filter_Some. done.
  - symmetry. apply map_lookup_filter_None. by left.
Qed.

(** ** What one call does to the fields of the cache *)

(** The map has been allocated. *)
Definition allocated w : Prop := is_Some (items (cache w)).

(** Case analysis on a call that returned. *)
Ltac exec_cases :=
  unfold_call;
  repeat match goal with
         | w : World V |- _ => destruct w as [[? [?|] []] ?]
         | op : Op V |- _ => destruct op
         end;
  simpl in *; simplify_eq;
  repeat (case_match; simpl in *; simplify_eq); simpl in *.

Lemma exec_allocated now op w r w' :
  exec now op w = Ok (r, w') → allocated w → allocated w'.
Proof. unfold allocated. intros He [g Hg]. exec_cases; eauto. Qed.

Lemma exec_total now op w :
  allocated w → ∃ r w', exec now op w = Ok (r, w').
Proof. unfold allocated. intros [g Hg]. exec_cases; eauto. Qed.

Lemma exec_ttl now op w r w' :
  exec now op w = Ok (r, w') → ttl (cache w') = ttl (cache w).
Proof. intros He. exec_cases; eauto. Qed.

Lemma exec_isTTL_mono now op w r w' :
  exec now op w = Ok (r, w') → isTTL (cache w) = true → isTTL (cache w') = true.
Proof. intros He Ht. exec_cases; eauto. Qed.

Lemma exec_isTTL_change now op w r w' :
  exec now op w = Ok (r, w') →
  isTTL (cache w') ≠ isTTL (cache w) →
  (∃ key d ttl', op = OSetTTL key d ttl') ∧
  isTTL (cache w) = false ∧ isTTL (cache w') = true.
Proof. intros He Ht. exec_cases; try done; repeat split; eauto. Qed.

(** A reaper is spawned by the call that enters TTL mode and by no other;
    its period is the clamped [ttl] field. *)
Lemma exec_reapers now op w r w' :
  exec now op w = Ok (r, w') →
  reapers w' =
    if isTTL (cache w) then reapers w
    else if isTTL (cache w')
         then reapers w ++ [Z.max (ttl (cache w)) Millisecond]
         else reapers w.
Proof.
  intros He. exec_cases; eauto; f_equal; f_equal; unfold Millisecond in *; lia.
Qed.

Lemma NewTTLCache_unfold duration :
  NewTTLCache (V:=V) duration =
  {| cache := {| ttl := duration; items := Some ∅; isTTL := true |};
     reapers := [Z.max duration Millisecond] |}.
Proof.
  unfold NewTTLCache. unfold_call. f_equal. f_equal.
  case_match; unfold Millisecond in *; lia.
Qed.

Lemma reachable_from_ind_inv (I : World V → Prop) init :
  I init →
  (∀ now op w r w', I w → exec now op w = Ok (r, w') → I w') →
  ∀ w, reachable_from init w → I w.
Proof. intros H0 Hs w Hr. induction Hr; eauto. Qed.

Lemma reachable_allocated w : reachable w → allocated w.
Proof.
  intros [Hr | [duration Hr]]; revert w Hr; apply reachable_from_ind_inv.
  - by eexists.
  - intros; by eapply exec_allocated.
  - rewrite NewTTLCache_unfold. by eexists.
  - intros; by eapply exec_allocated.
Qed.

(** The entries of a map are those expired at [now] and those that are not. *)
Lemma size_split_expired g now :
  size g = (size (filter (λ kv, expired now kv.2 = true) g) +
            size (filter (λ kv, expired now kv.2 = false) g))%nat.
Proof.
  rewrite <- (map_filter_union_complement (λ kv, expired now kv.2 = true) g) at 1.
  rewrite map_size_disj_union by apply map_disjoint_filter_complement.
  do 2 f_equal.
  apply map_filter_ext. intros i x _. simpl. by destruct (expired now x).
Qed.

(** ** Invariants of the reachable worlds *)

Lemma run_reachable_from init tr w :
  run tr init = Ok w → reachable_from init w.
Proof.
  assert (∀ w0, reachable_from init w0 → run tr w0 = Ok w → reachable_from init w)
    as H; [|apply H; constructor].
  induction tr as [|[now op] tr IH]; simpl; intros w0 Hr Hrun.
  - by injection Hrun as <-.
  - destruct (exec now op w0) as [[r w1]|] eqn:He; [|done].
    eapply IH; [|done]. by eapply reach_step.
Qed.

Lemma reachable_NewCache_ttl w :
  reachable_from NewCache w → ttl (cache w) = 0.
Proof.
  revert w. apply reachable_from_ind_inv; [done|].
  intros now op w r w' <- He. by eapply exec_ttl.
Qed.

Lemma reachable_NewTTLCache duration w :
  reachable_from (NewTTLCache duration) w →
  ttl (cache w) = duration ∧ isTTL (cache w) = true.
Proof.
  revert w. apply reachable_from_ind_inv.
  - by rewrite NewTTLCache_unfold.
  - intros now op w r w' [<- Ht] He. split.
    + by eapply exec_ttl.
    + by eapply exec_isTTL_mono.
Qed.

(** At most one ticker, with the period fixed when TTL mode was entered. *)
Definition reapers_inv w : Prop :=
  reapers w =
    if isTTL (cache w) then [Z.max (ttl (cache w)) Millisecond] else [].

Lemma exec_reapers_inv now op w r w' :
  reapers_inv w → exec now op w = Ok (r, w') → reapers_inv w'.
Proof.
  unfold reapers_inv. intros Hi He.
  rewrite (exec_reapers _ _ _ _ _ He), (exec_ttl _ _ _ _ _ He).
  destruct (isTTL (cache w)) eqn:Ht.
  - by rewrite (exec_isTTL_mono _ _ _ _ _ He Ht).
  - rewrite Hi. by destruct (isTTL (cache w')).
Qed.

Lemma reachable_reapers_inv w : reachable w → reapers_inv w.
Proof.
  intros [Hr | [duration Hr]]; revert w Hr; apply reachable_from_ind_inv.
  - done.
  - intros; by eapply exec_reapers_inv.
  - by rewrite NewTTLCache_unfold.
  - intros; by eapply exec_reapers_inv.
Qed.

(** Where an entry found after a call comes from: it was there before, or
    the call wrote or touched it, and then it carries an expiration exactly
    when the call was made in, or entered, TTL mode. *)
Lemma exec_entry_origin now op w r w' k item :
  exec now op w = Ok (r, w') →
  map_index (items (cache w')) k = Some item →
  map_index (items (cache w)) k = Some item ∨
  (isTTL (cache w') = true ∧ is_Some (expiresAt item)) ∨
  (isTTL (cache w') = false ∧ expiresAt item = None).
Proof.
  intros He Hk. destruct op.
  - exec_cases; (destruct (decide (k = key)) as [->|Hne];
      [rewrite lookup_insert_eq in Hk | rewrite lookup_insert_ne in Hk by done]);
      simplify_eq; simpl; eauto.
  - exec_cases; (destruct (decide (k = key)) as [->|Hne];
      [rewrite lookup_insert_eq in Hk | rewrite lookup_insert_ne in Hk by done]);
      simplify_eq; simpl; eauto.
  - exec_cases; eauto;
      (destruct (decide (k = key)) as [->|Hne];
       [rewrite lookup_insert_eq in Hk | rewrite lookup_insert_ne in Hk by done]);
      simplify_eq; simpl; eauto.
  - exec_cases; eauto.
  - unfold exec, Clear, bind, get_cache, put_cache, ret in He. simplify_eq.
    destruct w as [[t [g|] b] rs]; simpl in *; [|done].
    pose proof (map_range_lookup (λ _ _, true) g k) as Hl. simpl in Hl.
    rewrite Hl in Hk. by destruct (g !! k).
  - exec_cases; eauto;
      (destruct (decide (k = key)) as [->|Hne];
       [rewrite lookup_delete_eq in Hk | rewrite lookup_delete_ne in Hk by done]);
      simplify_eq; eauto.
  - unfold exec, ttlCleanup, bind, get_cache, put_cache, ret in He.
    destruct w as [[t [g|] []] rs]; simpl in *; simplify_eq; simpl in *; eauto.
    pose proof (map_range_lookup (λ _ item, expired now item) g k) as Hl.
    simpl in Hl. rewrite Hl in Hk.
    destruct (g !! k) as [item'|]; [|done].
    destruct (expired now item'); [done|]. eauto.
Qed.

(** ** Reads *)

(** Claim C1.  In TTL mode, [Get] answers [(nil, false)] and changes nothing
    when the key is absent or its entry is expired (even though the entry is
    still in the map); when the entry is present and unexpired, [Get] answers
    [(data, true)] and leaves that entry touched with the cache's [ttl], that
    is with [expiresAt = now + ttl], every other binding and field being as
    before. *)
Theorem Get_TTL_mode w key now :
  isTTL (cache w) = true →
  (map_index (items (cache w)) key = None →
     Get key now w = Ok ((None, false), w)) ∧
  (∀ item, map_index (items (cache w)) key = Some item →
     expired now item = true →
     Get key now w = Ok ((None, false), w)) ∧
  (∀ item, map_index (items (cache w)) key = Some item →
     expired now item = false →
     ∃ w', Get key now w = Ok ((data item, true), w') ∧
       map_index (items (cache w')) key
         = Some {| data := data item; expiresAt := Some (now + ttl (cache w)) |} ∧
       (∀ k, k ≠ key →
          map_index (items (cache w')) k = map_index (items (cache w)) k) ∧
       ttl (cache w') = ttl (cache w) ∧
       isTTL (cache w') = true ∧
       reapers w' = reapers w).
Proof.
  intros Ht. unfold Get, bind, get_cache, ret. rewrite Ht.
  split; [|split].
  - by intros ->.
  - by intros item -> ->.
  - intros item Hk He. rewrite Hk, He. unfold put_cache. eexists. split; [done|].
    destruct w as [[t [g|] b] rs]; simpl in *; [|done].
    repeat split; try done.
    + apply lookup_insert_eq.
    + intros k Hne. by apply lookup_insert_ne.
Qed.

(** Claim C9.  In unbounded mode, [Get] answers [(data, true)] for a key
    that is present and [(nil, false)] otherwise, and the world it returns is
    the world it was given: map, items, fields and reapers are untouched. *)
Theorem Get_unbounded_mode w key now :
  isTTL (cache w) = false →
  Get key now w =
    Ok (match map_index (items (cache w)) key with
        | Some item => (data item, true)
        | None => (None, false)
        end, w).
Proof.
  intros Ht. unfold Get, bind, get_cache, ret. rewrite Ht.
  by destruct (map_index _ _).
Qed.

(** Claim C5.  [Count] answers the size of the map and returns the world
    unchanged; that size counts the entries that are expired at any given
    instant together with those that are not. *)
Theorem Count_raw_size w :
  Count w = Ok (map_len (items (cache w)), w) ∧
  (∀ g now, items (cache w) = Some g →
     map_len (items (cache w)) =
       Z.of_nat (size (filter (λ kv, expired now kv.2 = true) g)) +
       Z.of_nat (size (filter (λ kv, expired now kv.2 = false) g))).
Proof.
  split; [done|].
  intros g now ->. simpl.
  rewrite (size_split_expired g now) at 1. apply Nat2Z.inj_add.
Qed.

(** ** The reaper *)

(** Claim C2.  A tick in TTL mode removes the entries that are expired and
    keeps every other entry as it is; a tick in unbounded mode returns the
    world unchanged. *)
Theorem ttlCleanup_tick w now :
  (isTTL (cache w) = true →
     ∃ w', ttlCleanup now w = Ok (tt, w') ∧
       (∀ k, map_index (items (cache w')) k =
             match map_index (items (cache w)) k with
             | Some item => if expired now item then None else Some item
             | None => None
             end) ∧
       map_len (items (cache w')) =
         map_len (items (cache w)) -
         match items (cache w) with
         | Some g => Z.of_nat (size (filter (λ kv, expired now kv.2 = true) g))
         | None => 0
         end ∧
       ttl (cache w') = ttl (cache w) ∧
       isTTL (cache w') = true ∧
       reapers w' = reapers w) ∧
  (isTTL (cache w) = false → ttlCleanup now w = Ok (tt, w)).
Proof.
  unfold ttlCleanup, bind, get_cache, ret, put_cache. split; intros Ht; rewrite Ht; [|done].
  eexists. split; [done|].
  destruct w as [[t [g|] b] rs]; simpl in *; [|by repeat split].
  repeat split; try done.
  - intros k. apply (map_range_lookup (λ _ item, expired now item) g k).
  - pose proof (map_range_filter (λ _ item, expired now item) g) as Hf.
    unfold map_range in Hf. injection Hf as ->.
    pose proof (size_split_expired g now). simpl in *. lia.
Qed.

(** ** Mode and reaper lifecycle *)

(** Claim C4.  [NewTTLCache] returns a cache in TTL mode with its one
    reaper started; [NewCache] returns an unbounded cache with none.  Along
    any run from a constructor: a cache in TTL mode stays in TTL mode, for
    one call and for any number of calls, and keeps the reapers it has (so a
    cache from [NewTTLCache] always runs the constructor's reaper and no
    other); the only call that changes the mode is [SetTTL] on an unbounded
    cache, which enters TTL mode and starts the one reaper; a call that
    leaves the mode as it is starts none.  Hence the number of reapers is
    one in TTL mode and zero in unbounded mode. *)
Theorem mode_one_way :
  (∀ duration,
     isTTL (cache (NewTTLCache (V:=V) duration)) = true ∧
     length (reapers (NewTTLCache (V:=V) duration)) = 1%nat) ∧
  (isTTL (cache (NewCache (V:=V))) = false ∧ reapers (NewCache (V:=V)) = []) ∧
  (∀ duration w,
     reachable_from (NewTTLCache duration) w →
     isTTL (cache w) = true ∧
     reapers w = reapers (NewTTLCache (V:=V) duration)) ∧
  (∀ w w2,
     reachable w → reachable_from w w2 → isTTL (cache w) = true →
     isTTL (cache w2) = true ∧ reapers w2 = reapers w) ∧
  (∀ w,
     reachable w →
     length (reapers w) = (if isTTL (cache w) then 1 else 0)%nat ∧
     (∀ now op r w', exec now op w = Ok (r, w') →
        (isTTL (cache w) = true →
           isTTL (cache w') = true ∧ reapers w' = reapers w) ∧
        (isTTL (cache w') ≠ isTTL (cache w) →
           (∃ key d ttl', op = OSetTTL key d ttl') ∧
           isTTL (cache w) = false ∧ isTTL (cache w') = true ∧
           reapers w = [] ∧ length (reapers w') = 1%nat) ∧
        (isTTL (cache w') = isTTL (cache w) → reapers w' = reapers w)) ∧
     (∀ now key d ttl', isTTL (cache w) = false →
        ∃ w', exec now (OSetTTL key d ttl') w = Ok (RUnit, w') ∧
          isTTL (cache w') = true ∧ length (reapers w') = 1%nat)).
Proof.
  assert (∀ w w2, reachable_from w w2 → isTTL (cache w) = true →
            isTTL (cache w2) = true ∧ reapers w2 = reapers w) as Hstay.
  { intros w w2 Hr Ht. induction Hr as [|w1 now op r w2 _ [Ht1 Hrs1] He];
      [done|].
    split; [by eapply exec_isTTL_mono|].
    rewrite (exec_reapers _ _ _ _ _ He), Ht1. done. }
  split; [|split; [|split; [|split]]].
  - intros duration. by rewrite NewTTLCache_unfold.
  - done.
  - intros duration w Hr. apply Hstay; [done|]. by rewrite NewTTLCache_unfold.
  - intros w w2 _. apply Hstay.
  - intros w Hr. pose proof (reachable_reapers_inv w Hr) as Hi.
    pose proof (reachable_allocated w Hr) as Ha.
    split; [|split].
    + unfold reapers_inv in Hi. rewrite Hi. by destruct (isTTL (cache w)).
    + intros now op r w' He.
      pose proof (exec_reapers _ _ _ _ _ He) as Hrs.
      pose proof (exec_reapers_inv _ _ _ _ _ Hi He) as Hi'.
      split; [|split].
      * intros Ht. split; [by eapply exec_isTTL_mono | by rewrite Ht in Hrs].
      * intros Hne.
        destruct (exec_isTTL_change _ _ _ _ _ He Hne) as (Hop & Hf & Ht).
        unfold reapers_inv in Hi, Hi'. rewrite Hf in Hi. rewrite Ht in Hi'.
        by rewrite Hi'.
      * intros Heq. rewrite Heq in Hrs. by destruct (isTTL (cache w)).
    + intros now key d ttl' Hf.
      destruct (exec_total now (OSetTTL key d ttl') w Ha) as (r & w' & He).
      assert (isTTL (cache w') = true) as Ht.
      { clear -He Hf. exec_cases; done. }
      assert (r = RUnit) as -> by (clear -He; exec_cases; done).
      exists w'. repeat split; [done..|].
      pose proof (exec_reapers_inv _ _ _ _ _ Hi He) as Hi'.
      unfold reapers_inv in Hi'. by rewrite Hi', Ht.
Qed.

(** Claim C6.  The period of the reaper is [max ttl 1ms], with [ttl] the
    cache's field when TTL mode is entered; no call changes [ttl], and no
    call made in TTL mode changes the reapers, whatever duration a later
    [SetTTL] carries. *)
Theorem reaper_period w :
  reachable w →
  (isTTL (cache w) = true → reapers w = [Z.max (ttl (cache w)) Millisecond]) ∧
  (isTTL (cache w) = false → reapers w = []) ∧
  (∀ duration, reachable_from (NewTTLCache duration) w →
     reapers w = [Z.max duration Millisecond]) ∧
  (∀ now op r w', exec now op w = Ok (r, w') →
     ttl (cache w') = ttl (cache w) ∧
     (isTTL (cache w) = true → reapers w' = reapers w) ∧
     (isTTL (cache w) = false → isTTL (cache w') = true →
        reapers w' = [Z.max (ttl (cache w)) Millisecond])).
Proof.
  intros Hr. pose proof (reachable_reapers_inv w Hr) as Hi.
  unfold reapers_inv in Hi. split; [|split; [|split]].
  - intros Ht. by rewrite Hi, Ht.
  - intros Ht. by rewrite Hi, Ht.
  - intros duration Hd.
    destruct (reachable_NewTTLCache _ _ Hd) as [Httl Ht].
    by rewrite Hi, Ht, Httl.
  - intros now op r w' He. split; [|split].
    + by eapply exec_ttl.
    + intros Ht. rewrite (exec_reapers _ _ _ _ _ He). by rewrite Ht.
    + intros Hf Ht. rewrite (exec_reapers _ _ _ _ _ He). by rewrite Hf, Ht, Hi, Hf.
Qed.

(** ** The default TTL of a cache that started unbounded *)

(** Claim C3.  [SetTTL] leaves the [ttl] field as it is.  A cache built by
    [NewCache] therefore keeps [ttl = 0] for ever; once it is in TTL mode,
    every [Cache_Set] stores its entry with [expiresAt = now] and every
    [Get] that finds its key leaves the entry with [expiresAt = now], so the
    entry is expired at every later instant. *)
Theorem SetTTL_keeps_ttl w :
  (∀ key d ttl' now w',
     SetTTL key d ttl' now w = Ok (tt, w') → ttl (cache w') = ttl (cache w)) ∧
  (reachable_from NewCache w →
     ttl (cache w) = 0 ∧
     (isTTL (cache w) = true →
        (∀ key d now,
           ∃ w', Cache_Set key d now w = Ok (tt, w') ∧
             map_index (items (cache w')) key
               = Some {| data := d; expiresAt := Some now |} ∧
             ∀ later, now < later →
               expired later {| data := d; expiresAt := Some now |} = true) ∧
        (∀ key now d w',
           Get key now w = Ok ((d, true), w') →
           map_index (items (cache w')) key
             = Some {| data := d; expiresAt := Some now |} ∧
           ∀ later, now < later →
             expired later {| data := d; expiresAt := Some now |} = true))).
Proof.
  split.
  - intros key d ttl' now w' He.
    apply (exec_ttl now (OSetTTL key d ttl') w RUnit w').
    unfold exec, bind, ret in *. by rewrite He.
  - intros Hr. pose proof (reachable_NewCache_ttl w Hr) as Httl.
    assert (allocated w) as [g Hg] by (apply reachable_allocated; by left).
    split; [done|]. intros Ht.
    assert (∀ now later (d : option V), now < later →
              expired later {| data := d; expiresAt := Some now |} = true) as Hexp.
    { intros now later d Hlt. unfold expired. simpl. by apply Z.ltb_lt. }
    split.
    + intros key d now. unfold Cache_Set, bind, get_cache, lift, put_cache.
      rewrite Ht, Hg, Httl. simpl. eexists. split; [done|]. simpl.
      unfold touch. simpl. rewrite Z.add_0_r, lookup_insert_eq. eauto.
    + intros key now d w'. unfold Get, bind, get_cache, ret, put_cache.
      rewrite Ht, Hg, Httl. simpl.
      destruct (g !! key) as [item|]; [|done].
      destruct (expired now item); [done|].
      intros [= <- <-]. simpl.
      unfold touch. simpl. rewrite Z.add_0_r, lookup_insert_eq. eauto.
Qed.

(** ** The mode invariant, as far as it holds *)

(** Claim C7, amended.  Both constructors establish the invariant, and every
    call that leaves the mode as it is preserves it.  Hence no entry of a
    reachable cache in unbounded mode carries an expiration, and every entry
    of a cache built by [NewTTLCache] carries one.  [SetTTL] puts the cache
    in TTL mode, stores its own entry with [expiresAt = now + ttl'] and
    leaves every other entry as it was, so that entries written in
    unbounded mode stay without an expiration. *)
Theorem mode_inv_same_mode :
  mode_inv (V:=V) NewCache ∧
  (∀ duration, mode_inv (V:=V) (NewTTLCache duration)) ∧
  (∀ now op w r w',
     exec now op w = Ok (r, w') → mode_inv w →
     isTTL (cache w') = isTTL (cache w) → mode_inv w') ∧
  (∀ w, reachable w → isTTL (cache w) = false → unset_everywhere w) ∧
  (∀ duration w, reachable_from (NewTTLCache duration) w →
     isTTL (cache w) = true ∧ set_everywhere w) ∧
  (∀ now key d ttl' w r w',
     exec now (OSetTTL key d ttl') w = Ok (r, w') →
     isTTL (cache w') = true ∧
     map_index (items (cache w')) key
       = Some {| data := d; expiresAt := Some (now + ttl') |} ∧
     ∀ k, k ≠ key →
       map_index (items (cache w')) k = map_index (items (cache w)) k).
Proof.
  assert (∀ now op w r w',
     exec now op w = Ok (r, w') → mode_inv w →
     isTTL (cache w') = isTTL (cache w) → mode_inv w') as Hstep.
  { intros now op w r w' He Hi Hm. unfold mode_inv in *. rewrite Hm.
    destruct (isTTL (cache w)) eqn:Ht; intros k item Hk;
      destruct (exec_entry_origin _ _ _ _ _ _ _ He Hk) as [?|[[? ?]|[? ?]]];
      eauto; congruence. }
  assert (mode_inv (V:=V) NewCache) as Hnew by (by intros k item Hk).
  assert (∀ duration, mode_inv (V:=V) (NewTTLCache duration)) as Hnewttl.
  { intros duration. rewrite NewTTLCache_unfold. by intros k item Hk. }
  assert (∀ init w, mode_inv init → reachable_from init w →
            isTTL (cache w) = isTTL (cache init) → mode_inv w) as Hreach.
  { intros init w Hi Hr. induction Hr as [|w now op r w' Hr IH He]; [done|].
    intros Hm. destruct (isTTL (cache w)) eqn:Ht.
    - pose proof (exec_isTTL_mono _ _ _ _ _ He Ht) as Ht'.
      eapply Hstep; [done| |congruence]. apply IH. congruence.
    - destruct (isTTL (cache w')) eqn:Ht'.
      + assert (isTTL (cache init) = false) as Hinit.
        { clear -Hr Ht. induction Hr; [done|].
          destruct (isTTL (cache w)) eqn:E; [|by apply IHHr].
          by rewrite (exec_isTTL_mono _ _ _ _ _ H E) in Ht. }
        congruence.
      + eapply Hstep; [done| |congruence]. apply IH. congruence. }
  split; [done|]. split; [done|]. split; [done|]. split; [|split].
  - intros w [Hr|[duration Hr]] Ht.
    + specialize (Hreach _ _ Hnew Hr Ht). unfold mode_inv in Hreach.
      by rewrite Ht in Hreach.
    + destruct (reachable_NewTTLCache _ _ Hr) as [_ Ht']. congruence.
  - intros duration w Hr.
    destruct (reachable_NewTTLCache _ _ Hr) as [_ Ht]. split; [done|].
    assert (isTTL (cache w) = isTTL (cache (NewTTLCache (V:=V) duration))) as Hm.
    { by rewrite Ht, NewTTLCache_unfold. }
    specialize (Hreach _ _ (Hnewttl duration) Hr Hm). unfold mode_inv in Hreach.
    by rewrite Ht in Hreach.
  - intros now key d ttl' w r w' He. exec_cases; (split; [done|]);
      (split; [by rewrite lookup_insert_eq|]);
      intros k Hne; by rewrite lookup_insert_ne.
Qed.

(** ** Totality *)

(** Claim C8.  On a cache obtained from a constructor every call returns:
    none panics.  A key that is absent is reported by [Get] through
    [found = false] in an ordinary return, and [Delete] of an absent key
    returns the world unchanged. *)
Theorem exec_never_fails w :
  reachable w →
  (∀ now op, ∃ r w', exec now op w = Ok (r, w')) ∧
  (∀ tr, ∃ w', run tr w = Ok w') ∧
  (∀ now key, map_index (items (cache w)) key = None →
     exec now (OGet key) w = Ok (RGet None false, w)) ∧
  (∀ now key, map_index (items (cache w)) key = None →
     exec now (ODelete key) w = Ok (RUnit, w)).
Proof.
  intros Hr. pose proof (reachable_allocated w Hr) as Ha.
  split; [|split; [|split]].
  - intros now op. by apply exec_total.
  - intros tr. clear Hr. revert w Ha.
    induction tr as [|[now op] tr IH]; intros w Ha; simpl; [by eexists|].
    destruct (exec_total now op w Ha) as (r & w' & He). rewrite He.
    apply IH. by eapply exec_allocated.
  - intros now key Hk. unfold exec, Get, bind, get_cache, ret. rewrite Hk.
    by destruct (isTTL (cache w)).
  - intros now key Hk. unfold exec, Delete, bind, get_cache, ret. by rewrite Hk.
Qed.

End Properties.

(** * Properties of the locking discipline *)

Section Locking.

Implicit Types (t : Thread) (p : Pool) (m : Method) (a : Action) (h : Held)
  (ts : list Thread) (i j : nat).

Lemma lock_free_loop (n : nat) (body : list Action) :
  lock_free body → lock_free (concat (replicate n body)).
Proof.
  intros Hb. induction n as [|n IH]; simpl; [constructor|].
  by apply Forall_app.
Qed.

(** The mode after an action, and the mode the action needs before it. *)
Definition held_after a h : Held :=
  match a with
  | Lock => Writing
  | RLock => Reading
  | Unlock | RUnlock => Free
  | _ => h
  end.

Definition held_before a h : Held :=
  match a with
  | Lock | RLock => Free
  | Unlock => Writing
  | RUnlock => Reading
  | _ => h
  end.

Lemma thread_inv_step t a rest :
  thread_inv t → todo t = a :: rest →
  thread_inv {| meth := meth t; held := held_after a (held t); todo := rest |} ∧
  held t = held_before a (held t).
Proof.
  destruct t as [m h td]. unfold thread_inv. simpl. intros Hinv ->.
  destruct h.
  - destruct Hinv as [Hp | [? | [Hg Hlf]]]; [|done|].
    + destruct m; simpl in Hp; simplify_eq; simpl; (split; [|done]);
        try (split; [done|]).
      * by exists [MapWrite]; split; [|repeat constructor].
      * by exists [MapWrite]; split; [|repeat constructor].
      * by exists [MapRead; ItemRead; ItemWrite]; split; [|repeat constructor].
      * by exists [MapRead]; split; [|repeat constructor].
      * eexists; split; [done|]. apply lock_free_loop. by repeat constructor.
      * eexists; split; [done|]. apply lock_free_loop. by repeat constructor.
      * right; right. split; [done|]. by repeat constructor.
    + inversion Hlf as [|? ? Ha Hrest]; subst.
      destruct a; simpl in *; try done; (split; [|done]);
        right; right; by split.
  - destruct Hinv as [Hg (accs & Htd & Hlf)].
    destruct accs as [|a' accs]; simpl in Htd; injection Htd as -> ->; simpl.
    + split; [|done]. by right; left.
    + inversion Hlf as [|? ? Ha Hrest]; subst.
      destruct a'; simpl in *; try done; (split; [|done]);
        (split; [done|]); by exists accs.
  - destruct Hinv as [Hg (accs & Htd & Hlf)].
    destruct accs as [|a' accs]; simpl in Htd; injection Htd as -> ->; simpl.
    + split; [|done]. by right; left.
    + inversion Hlf as [|? ? Ha Hrest]; subst.
      destruct a'; simpl in *; try done; (split; [|done]);
        (split; [done|]); by exists accs.
Qed.

(** ** Counting the holders *)

Lemma holders_cons h t ts :
  holders h (t :: ts) =
  ((if decide (held t = h) then 1 else 0) + holders h ts)%nat.
Proof. unfold holders. rewrite filter_cons. by case_decide. Qed.

Lemma holders_insert h ts i t t' :
  ts !! i = Some t →
  (holders h (<[i := t']> ts) + (if decide (held t = h) then 1 else 0)
   = holders h ts + (if decide (held t' = h) then 1 else 0))%nat.
Proof.
  revert i. induction ts as [|t0 ts IH]; intros [|i] Hi; simpl in *; simplify_eq.
  - rewrite !holders_cons. lia.
  - rewrite !holders_cons. specialize (IH i Hi). lia.
Qed.

Lemma holders_pos h ts i t :
  ts !! i = Some t → held t = h → (1 ≤ holders h ts)%nat.
Proof.
  revert i. induction ts as [|t0 ts IH]; intros [|i] Hi Hh; simpl in *;
    try done; rewrite holders_cons.
  - injection Hi as ->. rewrite decide_True by done. lia.
  - specialize (IH i Hi Hh). lia.
Qed.

Lemma holders_two h ts i j t t' :
  i ≠ j → ts !! i = Some t → ts !! j = Some t' →
  held t = h → held t' = h → (2 ≤ holders h ts)%nat.
Proof.
  revert i j. induction ts as [|t0 ts IH]; intros [|i] [|j] Hne Hi Hj Hh Hh';
    simpl in *; try done; rewrite holders_cons.
  - injection Hi as ->. rewrite decide_True by done.
    pose proof (holders_pos _ _ _ _ Hj Hh'). lia.
  - injection Hj as ->. rewrite decide_True by done.
    pose proof (holders_pos _ _ _ _ Hi Hh). lia.
  - assert (i ≠ j) as Hne' by congruence.
    specialize (IH i j Hne' Hi Hj Hh Hh'). lia.
Qed.

Lemma holders_start h ms : h ≠ Free → holders h (spawn <$> ms) = 0%nat.
Proof.
  intros Hh. induction ms as [|m ms IH]; [done|].
  rewrite fmap_cons, holders_cons, IH. simpl. by rewrite decide_False.
Qed.

(** ** The invariant of the pool *)

Lemma start_pool_inv ms : pool_inv (start ms).
Proof.
  unfold pool_inv, start. simpl. rewrite !holders_start by done.
  repeat split; try done.
  apply Forall_fmap, Forall_forall. intros m _. by left.
Qed.

Lemma step_pool_inv i p p' : pool_inv p → step i p = Some p' → pool_inv p'.
Proof.
  intros (HW & HR & Hwr & Hts). unfold step.
  destruct (threads p !! i) as [t|] eqn:Hi; [|done].
  destruct (todo t) as [|a rest] eqn:Htd; [done|].
  pose proof (Forall_lookup_1 _ _ _ _ Hts Hi) as Ht.
  destruct (thread_inv_step t a rest Ht Htd) as [Ht' Hb].
  pose proof (holders_insert Writing _ i t
                {| meth := meth t; held := held_after a (held t); todo := rest |}
                Hi) as HW'.
  pose proof (holders_insert Reading _ i t
                {| meth := meth t; held := held_after a (held t); todo := rest |}
                Hi) as HR'.
  pose proof (Forall_insert _ _ i _ Hts Ht') as Hts'.
  unfold pool_inv.
  destruct (writer p) eqn:Hw, a; simpl in *; try rewrite Hb in HW', HR';
    simpl in HW', HR';
    repeat case_match; try done; intros [= <-]; simpl;
    repeat match goal with
           | H : negb _ = false |- _ => apply negb_false_iff, Nat.eqb_eq in H
           | H : true = true → _ |- _ => specialize (H eq_refl)
           end;
    repeat split; try done; try lia.
Qed.

Lemma pool_reachable_inv ms p : pool_reachable ms p → pool_inv p.
Proof.
  induction 1 as [|p i p' _ IH Hs]; [apply start_pool_inv|].
  by eapply step_pool_inv.
Qed.

Lemma schedule_reachable ms sched p :
  schedule sched (start ms) = Some p → pool_reachable ms p.
Proof.
  assert (∀ p0, pool_reachable ms p0 → schedule sched p0 = Some p →
                pool_reachable ms p) as H; [|apply H; constructor].
  induction sched as [|i sched IH]; simpl; intros p0 Hr Hs.
  - by injection Hs as <-.
  - destruct (step i p0) as [p1|] eqn:He; [|done].
    eapply IH; [|done]. by eapply pool_step.
Qed.

(** A goroutine about to access the map holds the mutex in the mode of its
    method. *)
Lemma access_held t a rest :
  thread_inv t → todo t = a :: rest → is_map_access a = true →
  held t = guard (meth t).
Proof.
  destruct t as [m h td]. unfold thread_inv. simpl. intros Hinv -> Ha.
  destruct h.
  - destruct Hinv as [Hp | [? | [Hg _]]]; [|done|done].
    destruct m; simpl in Hp; simplify_eq; by simpl in *.
  - by destruct Hinv as [-> _].
  - by destruct Hinv as [-> _].
Qed.

Lemma writer_excludes p i t :
  pool_inv p → threads p !! i = Some t → held t = Writing →
  others_not p i Writing ∧ others_not p i Reading.
Proof.
  intros (HW & HR & Hwr & _) Hi Hh. split; intros j t' Hne Hj Hh'.
  - pose proof (holders_two Writing _ _ _ _ _ Hne Hj Hi Hh' Hh).
    destruct (writer p); lia.
  - pose proof (holders_pos Writing _ _ _ Hi Hh).
    pose proof (holders_pos Reading _ _ _ Hj Hh').
    destruct (writer p); [|lia]. specialize (Hwr eq_refl). lia.
Qed.

Lemma reader_excludes p i t :
  pool_inv p → threads p !! i = Some t → held t = Reading →
  others_not p i Writing.
Proof.
  intros (HW & HR & Hwr & _) Hi Hh j t' Hne Hj Hh'.
  pose proof (holders_pos Reading _ _ _ Hi Hh).
  pose proof (holders_pos Writing _ _ _ Hj Hh').
  destruct (writer p); [|lia]. specialize (Hwr eq_refl). lia.
Qed.


End Locking.

(** * Concrete runs *)

Section Runs.

Local Open Scope string_scope.

(** [TestGet] and [TestDelete] of [cache_test.go]. *)
Example TestGet :
  exec 0 (OGet "hello") (NewCache (V:=string)) = Ok (RGet None false, NewCache) ∧
  ∃ w, run [(0, OSet "hello" (Some "world"))] NewCache = Ok w ∧
       isTTL (cache w) = false ∧
       ∃ w', exec 0 (OGet "hello") w = Ok (RGet (Some "world") true, w').
Proof.
  split; [reflexivity|]. eexists.
  split; [vm_compute; reflexivity|]. split; [reflexivity|].
  eexists. vm_compute. reflexivity.
Qed.

Example TestDelete :
  ∃ w, run [(0, OSet "hello" (Some "world")); (0, ODelete "hello")] NewCache = Ok w ∧
       exec 0 (OGet "hello") w = Ok (RGet None false, w).
Proof. eexists. split; vm_compute; reflexivity. Qed.

(** [TestClear] *)
Example TestClear :
  ∃ w w', run [(0, OSet "hello" (Some "world")); (0, OSet "foo" (Some "bar"))]
            NewCache = Ok w ∧
    exec 0 OCount w = Ok (RCount 2, w) ∧
    exec 0 OClear w = Ok (RUnit, w') ∧
    exec 0 OCount w' = Ok (RCount 0, w').
Proof.
  eexists _, _.
  repeat (split; [vm_compute; reflexivity|]).
  vm_compute. reflexivity.
Qed.

(** [TestExpiration]: instants in milliseconds after construction; the
    test's direct [cache.items["y"].touch(time.Second)] at 500ms is what a
    [Get] of ["y"] does; the reaper fires just after each whole second. *)
Example TestExpiration :
  ∃ w1 w2 w3,
    run [(0, OSet "x" (Some "1")); (0, OSet "y" (Some "z")); (0, OSet "z" (Some "3"))]
        (NewTTLCache Second) = Ok w1 ∧
    exec 0 OCount w1 = Ok (RCount 3, w1) ∧
    run [(500 * Millisecond, OGet "y"); (1001 * Millisecond, OTick)] w1 = Ok w2 ∧
    map_index (items (cache w2)) "x" = None ∧
    map_index (items (cache w2)) "z" = None ∧
    is_Some (map_index (items (cache w2)) "y") ∧
    exec (1500 * Millisecond) OCount w2 = Ok (RCount 1, w2) ∧
    run [(2001 * Millisecond, OTick)] w2 = Ok w3 ∧
    map_index (items (cache w3)) "y" = None ∧
    exec (2100 * Millisecond) OCount w3 = Ok (RCount 0, w3).
Proof.
  eexists _, _, _.
  repeat (split; [vm_compute; first [reflexivity | by eexists]|]).
  vm_compute. reflexivity.
Qed.

(** Writing into the zero value panics; reading it does not. *)
Example zero_value_panics :
  exec 0 (OSet "k" (Some "v")) zero_world = Panic "assignment to entry in nil map" ∧
  exec 0 (OGet "k") zero_world = Ok (RGet None false, zero_world) ∧
  exec 0 OCount zero_world = Ok (RCount 0, zero_world).
Proof. done. Qed.

(** ** Instances *)

Lemma Get_TTL_mode_witness :
  isTTL (cache ttl_world) = true ∧
  ∃ w', Get "x" (500 * Millisecond) ttl_world = Ok ((Some "1", true), w') ∧
        map_index (items (cache w')) "x"
          = Some {| data := Some "1";
                    expiresAt := Some (500 * Millisecond + Second) |}.
Proof.
  split; [reflexivity|].
  destruct (Get_TTL_mode ttl_world "x" (500 * Millisecond) eq_refl) as (_ & _ & H).
  destruct (H {| data := Some "1"; expiresAt := Some Second |} eq_refl eq_refl)
    as (w' & HG & Hk & _).
  exists w'. split; [exact HG | exact Hk].
Defined.

Lemma Get_unbounded_mode_witness :
  isTTL (cache unbounded_world) = false ∧
  Get "a" 7 unbounded_world = Ok ((Some "1", true), unbounded_world).
Proof.
  split; [reflexivity|].
  exact (Get_unbounded_mode unbounded_world "a" 7 eq_refl).
Defined.

Lemma Count_raw_size_witness :
  Count ttl_world = Ok (1, ttl_world) ∧
  map_len (items (cache ttl_world)) =
    Z.of_nat (size (filter (λ kv, expired (2 * Second) kv.2 = true)
                      (<["x" := {| data := Some "1"; expiresAt := Some Second |}]> ∅
                       : gmap string (Item string)))) +
    Z.of_nat (size (filter (λ kv, expired (2 * Second) kv.2 = false)
                      (<["x" := {| data := Some "1"; expiresAt := Some Second |}]> ∅
                       : gmap string (Item string)))).
Proof.
  destruct (Count_raw_size ttl_world) as [HC Hsz]. split; [exact HC|].
  exact (Hsz _ (2 * Second) eq_refl).
Defined.

Lemma ttlCleanup_tick_witness :
  isTTL (cache ttl_world) = true ∧
  isTTL (cache unbounded_world) = false ∧
  (∃ w', ttlCleanup (2 * Second) ttl_world = Ok (tt, w') ∧
         map_index (items (cache w')) "x" = None) ∧
  ttlCleanup (2 * Second) unbounded_world = Ok (tt, unbounded_world).
Proof.
  split; [reflexivity|]. split; [reflexivity|]. split.
  - destruct (ttlCleanup_tick ttl_world (2 * Second)) as [H _].
    destruct (H eq_refl) as (w' & HT & Hk & _).
    exists w'. split; [exact HT|]. exact (Hk "x").
  - destruct (ttlCleanup_tick unbounded_world (2 * Second)) as [_ H].
    exact (H eq_refl).
Defined.

Lemma switched_world_reachable : reachable_from NewCache switched_world.
Proof.
  apply (run_reachable_from _
           [(0, OSet "a" (Some "1")); (1, OSetTTL "b" (Some "2") Second)]).
  vm_compute. reflexivity.
Qed.

Lemma SetTTL_keeps_ttl_witness :
  reachable_from NewCache switched_world ∧
  isTTL (cache switched_world) = true ∧
  ttl (cache switched_world) = 0 ∧
  ∃ w', Cache_Set "c" (Some "3") 5 switched_world = Ok (tt, w') ∧
        map_index (items (cache w')) "c"
          = Some {| data := Some "3"; expiresAt := Some 5 |} ∧
        expired 6 {| data := Some "3"; expiresAt := Some 5 |} = true.
Proof.
  split; [exact switched_world_reachable|]. split; [reflexivity|].
  destruct (SetTTL_keeps_ttl switched_world) as [_ H].
  destruct (H switched_world_reachable) as [Httl H'].
  split; [exact Httl|].
  destruct (H' eq_refl) as [HS _].
  destruct (HS "c" (Some "3") 5) as (w' & HC & Hk & Hexp).
  exists w'. split; [exact HC|]. split; [exact Hk|].
  apply Hexp. lia.
Defined.

Lemma mode_one_way_witness :
  reachable switched_world ∧
  length (reapers switched_world) = 1%nat ∧
  reachable_from (NewTTLCache Second) ttl_world ∧
  isTTL (cache ttl_world) = true ∧
  reapers ttl_world = reapers (NewTTLCache (V:=string) Second).
Proof.
  assert (reachable switched_world) as Hr by (left; exact switched_world_reachable).
  assert (reachable_from (NewTTLCache Second) ttl_world) as Hr'.
  { apply (run_reachable_from _ [(0, OSet "x" (Some "1"))]). vm_compute. reflexivity. }
  destruct (mode_one_way (V:=string)) as (_ & _ & Hborn & _ & Hall).
  split; [exact Hr|]. split.
  - destruct (Hall switched_world Hr) as [H _]. exact H.
  - split; [exact Hr'|]. exact (Hborn Second ttl_world Hr').
Defined.

Lemma reaper_period_witness :
  reachable switched_world ∧
  isTTL (cache switched_world) = true ∧
  reapers switched_world = [Z.max 0 Millisecond].
Proof.
  assert (reachable switched_world) as Hr by (left; exact switched_world_reachable).
  split; [exact Hr|]. split; [reflexivity|].
  destruct (reaper_period switched_world Hr) as [H _]. exact (H eq_refl).
Defined.

Lemma exec_never_fails_witness :
  reachable switched_world ∧
  map_index (items (cache switched_world)) "zz" = None ∧
  exec 9 (OGet "zz") switched_world = Ok (RGet None false, switched_world) ∧
  exec 9 (ODelete "zz") switched_world = Ok (RUnit, switched_world).
Proof.
  assert (reachable switched_world) as Hr by (left; exact switched_world_reachable).
  split; [exact Hr|]. split; [reflexivity|].
  destruct (exec_never_fails switched_world Hr) as (_ & _ & HG & HD).
  split; [exact (HG 9 "zz" eq_refl) | exact (HD 9 "zz" eq_refl)].
Defined.

(** Claim C7 as stated fails: [SetTTL] on an unbounded cache that already
    holds ["a"] enters TTL mode and leaves ["a"] without an expiration. *)
Lemma mode_inv_counterexample :
  reachable unbounded_world ∧
  mode_inv unbounded_world ∧
  exec 1 (OSetTTL "b" (Some "2") Second) unbounded_world
    = Ok (RUnit, switched_world) ∧
  isTTL (cache switched_world) = true ∧
  map_index (items (cache switched_world)) "a"
    = Some {| data := Some "1"; expiresAt := None |} ∧
  ¬ mode_inv switched_world.
Proof.
  split.
  { left. apply (run_reachable_from _ [(0, OSet "a" (Some "1"))]).
    vm_compute. reflexivity. }
  split.
  { intros k item. unfold unbounded_world. simpl. intros Hk.
    destruct (decide (k = "a")) as [->|Hne].
    - rewrite lookup_insert_eq in Hk. by injection Hk as <-.
    - by rewrite lookup_insert_ne, lookup_empty in Hk. }
  split; [vm_compute; reflexivity|].
  split; [reflexivity|]. split; [reflexivity|].
  intros H. specialize (H "a" {| data := Some "1"; expiresAt := None |} eq_refl).
  by destruct H.
Qed.

Lemma mode_inv_same_mode_witness :
  reachable_from (NewTTLCache Second) ttl_world ∧
  isTTL (cache ttl_world) = true ∧ set_everywhere ttl_world.
Proof.
  assert (reachable_from (NewTTLCache Second) ttl_world) as Hr.
  { apply (run_reachable_from _ [(0, OSet "x" (Some "1"))]). vm_compute. reflexivity. }
  split; [exact Hr|].
  destruct (mode_inv_same_mode (V:=string)) as (_ & _ & _ & _ & H & _).
  exact (H Second ttl_world Hr).
Defined.


End Runs.

(** * How the calls compose *)

Section Composition.

Context {V : Type}.
Implicit Types (w : World V) (c : Cache V) (g : gmap string (Item V))
  (item : Item V) (key k : string) (now later : Z) (op : Op V)
  (d : option V).

Ltac unfold_call :=
  unfold exec, Cache_Set, SetTTL, Get, Count, Clear, Delete, ttlCleanup,
    startTTLCleanupTimer, spawn_ticker, bind, lift, ret, get_cache,
    put_cache, set_items, set_isTTL in *;
  simpl in *.

Ltac call_cases :=
  unfold_call;
  repeat match goal with
         | w : World V |- _ => destruct w as [[? [?|] []] ?]
         | op : Op V |- _ => destruct op
         end;
  simpl in *; simplify_eq;
  repeat (case_match; simpl in *; simplify_eq); simpl in *.

(** ** The calls on an allocated map, spelled out *)

Lemma Cache_Set_allocated t g (b : bool) rs key d now :
  Cache_Set key d now
    {| cache := {| ttl := t; items := Some g; isTTL := b |}; reapers := rs |}
  = Ok (tt,
        {| cache :=
             {| ttl := t;
                items := Some (<[key := {| data := d;
                                           expiresAt := if b then Some (now + t) else None |}]> g);
                isTTL := b |};
           reapers := rs |}).
Proof. by destruct b. Qed.

Lemma SetTTL_allocated t g (b : bool) rs key d ttl' now :
  SetTTL key d ttl' now
    {| cache := {| ttl := t; items := Some g; isTTL := b |}; reapers := rs |}
  = Ok (tt,
        {| cache :=
             {| ttl := t;
                items := Some (<[key := {| data := d; expiresAt := Some (now + ttl') |}]> g);
                isTTL := true |};
           reapers := if b then rs else rs ++ [Z.max t Millisecond] |}).
Proof.
  destruct b; [done|]. unfold_call. do 5 f_equal.
  case_match; unfold Millisecond in *; lia.
Qed.

Lemma Get_allocated t g (b : bool) rs key now :
  Get key now
    {| cache := {| ttl := t; items := Some g; isTTL := b |}; reapers := rs |}
  = match g !! key with
    | Some item =>
        if b && expired now item
        then Ok ((None, false),
                 {| cache := {| ttl := t; items := Some g; isTTL := b |};
                    reapers := rs |})
        else Ok ((data item, true),
                 {| cache :=
                      {| ttl := t;
                         items := if b
                                  then Some (<[key := {| data := data item;
                                                         expiresAt := Some (now + t) |}]> g)
                                  else Some g;
                         isTTL := b |};
                    reapers := rs |})
    | None => Ok ((None, false),
                  {| cache := {| ttl := t; items := Some g; isTTL := b |};
                     reapers := rs |})
    end.
Proof.
  unfold Get, bind, get_cache, ret, put_cache. simpl.
  destruct b, (g !! key) as [item|]; simpl; try done.
  by destruct (expired now item).
Qed.

Lemma ttlCleanup_allocated t g rs now :
  ttlCleanup now
    {| cache := {| ttl := t; items := Some g; isTTL := true |}; reapers := rs |}
  = Ok (tt,
        {| cache :=
             {| ttl := t;
                items := Some (filter (λ kv : string * Item V, expired now kv.2 = false) g);
                isTTL := true |};
           reapers := rs |}).
Proof.
  unfold ttlCleanup, bind, get_cache, put_cache, set_items.
  cbn [cache isTTL items ttl reapers].
  by rewrite (map_range_filter (λ _ item, expired now item) g).
Qed.

Lemma expired_at now d e :
  expired now {| data := d; expiresAt := Some e |} = bool_decide (e < now).
Proof.
  unfold expired. simpl. destruct (Z.ltb_spec e now).
  - by rewrite bool_decide_eq_true_2.
  - rewrite bool_decide_eq_false_2; [done|lia].
Qed.

(** ** Writing, then reading *)

(** [Set] followed by [Get] of the same key.  In unbounded mode the [Get]
    returns the payload and changes nothing.  In TTL mode it returns the
    payload exactly when it comes no later than [ttl] after the [Set], and
    then moves the deadline to its own instant plus [ttl]; a later [Get]
    answers [(nil, false)] and leaves the entry where it is. *)
Theorem Set_then_Get w key d now later :
  allocated w →
  ∃ w1, Cache_Set key d now w = Ok (tt, w1) ∧
    (isTTL (cache w) = false → Get key later w1 = Ok ((d, true), w1)) ∧
    (isTTL (cache w) = true → later ≤ now + ttl (cache w) →
       ∃ w2, Get key later w1 = Ok ((d, true), w2) ∧
         map_index (items (cache w2)) key
           = Some {| data := d; expiresAt := Some (later + ttl (cache w)) |}) ∧
    (isTTL (cache w) = true → now + ttl (cache w) < later →
       Get key later w1 = Ok ((None, false), w1) ∧
       map_index (items (cache w1)) key
         = Some {| data := d; expiresAt := Some (now + ttl (cache w)) |}).
Proof.
  intros [g Hg]. destruct w as [[t m b] rs]. cbn [cache items] in Hg. subst m.
  rewrite Cache_Set_allocated. eexists. split; [done|].
  rewrite Get_allocated, lookup_insert_eq. cbn [cache isTTL ttl items map_index].
  split; [|split]; intros ->.
  - done.
  - intros Hle. rewrite expired_at, bool_decide_eq_false_2 by lia.
    eexists. split; [done|]. cbn [cache items map_index data].
    by rewrite lookup_insert_eq.
  - intros Hlt. rewrite expired_at, bool_decide_eq_true_2 by lia.
    split; [done|]. by rewrite lookup_insert_eq.
Qed.

(** [SetTTL] followed by [Get] of the same key: the [Get] returns the
    payload exactly when it comes no later than the entry's own [ttl'] after
    the write, and it then replaces that deadline by its instant plus the
    cache's default [ttl]: the entry's own TTL lasts until its first read. *)
Theorem SetTTL_then_Get w key d ttl' now later :
  allocated w →
  ∃ w1, SetTTL key d ttl' now w = Ok (tt, w1) ∧
    isTTL (cache w1) = true ∧
    map_index (items (cache w1)) key
      = Some {| data := d; expiresAt := Some (now + ttl') |} ∧
    (later ≤ now + ttl' →
       ∃ w2, Get key later w1 = Ok ((d, true), w2) ∧
         map_index (items (cache w2)) key
           = Some {| data := d; expiresAt := Some (later + ttl (cache w)) |}) ∧
    (now + ttl' < later → Get key later w1 = Ok ((None, false), w1)).
Proof.
  intros [g Hg]. destruct w as [[t m b] rs]. cbn [cache items] in Hg. subst m.
  rewrite SetTTL_allocated. eexists. split; [done|].
  rewrite Get_allocated, lookup_insert_eq. cbn [cache isTTL ttl items map_index].
  rewrite lookup_insert_eq, expired_at.
  split; [done|]. split; [done|]. split.
  - intros Hle. rewrite bool_decide_eq_false_2 by lia.
    eexists. split; [done|]. cbn [cache items map_index data].
    by rewrite lookup_insert_eq.
  - intros Hlt. by rewrite bool_decide_eq_true_2 by lia.
Qed.

(** ** What [Set] leaves alone *)

(** [Set] changes the binding of its key and nothing else: the other
    bindings, [ttl], the mode and the reapers stay, and the size grows by
    one exactly when the key was not in the map. *)
Theorem Set_frame w key d now w1 :
  Cache_Set key d now w = Ok (tt, w1) →
  (∀ k, k ≠ key →
     map_index (items (cache w1)) k = map_index (items (cache w)) k) ∧
  ttl (cache w1) = ttl (cache w) ∧
  isTTL (cache w1) = isTTL (cache w) ∧
  reapers w1 = reapers w ∧
  map_len (items (cache w1)) =
    map_len (items (cache w)) +
    (if map_index (items (cache w)) key is Some _ then 0 else 1).
Proof.
  intros He. destruct w as [[t [g|] b] rs]; unfold_call; [|done].
  injection He as <-. simpl. repeat split.
  - intros k Hne. by apply lookup_insert_ne.
  - destruct (g !! key) as [item|] eqn:Hk.
    + rewrite map_size_insert_Some by done. lia.
    + rewrite map_size_insert_None by done. lia.
Qed.

(** The last write wins: a [Set] erases every trace of an earlier [Set] of
    the same key, and of an earlier [SetTTL] of it made in TTL mode. *)
Theorem Set_overwrites w key d1 d2 t1 t2 :
  (∀ w1, Cache_Set key d1 t1 w = Ok (tt, w1) →
     Cache_Set key d2 t2 w1 = Cache_Set key d2 t2 w) ∧
  (∀ ttl' w1, isTTL (cache w) = true →
     SetTTL key d1 ttl' t1 w = Ok (tt, w1) →
     Cache_Set key d2 t2 w1 = Cache_Set key d2 t2 w).
Proof.
  split.
  - intros w1 He. destruct w as [[t [g|] b] rs]; unfold_call; [|done].
    injection He as <-. simpl. by rewrite insert_insert_eq.
  - intros ttl' w1 Ht He. destruct w as [[t [g|] b] rs]; unfold_call; subst b;
      simpl in *; [|done].
    injection He as <-. simpl. by rewrite insert_insert_eq.
Qed.

(** ** Removing *)

(** [Delete] returns in every world, the zero value included.  Afterwards
    the key is absent, every other binding and every field is as before,
    the size has dropped by one exactly when the key was present, and a
    second [Delete] changes nothing. *)
Theorem Delete_removes w key :
  ∃ w1, Delete key w = Ok (tt, w1) ∧
    map_index (items (cache w1)) key = None ∧
    (∀ k, k ≠ key →
       map_index (items (cache w1)) k = map_index (items (cache w)) k) ∧
    ttl (cache w1) = ttl (cache w) ∧
    isTTL (cache w1) = isTTL (cache w) ∧
    reapers w1 = reapers w ∧
    map_len (items (cache w1)) =
      map_len (items (cache w)) -
      (if map_index (items (cache w)) key is Some _ then 1 else 0) ∧
    Delete key w1 = Ok (tt, w1).
Proof.
  destruct w as [[t [g|] b] rs]; unfold_call.
  - destruct (g !! key) as [item|] eqn:Hk.
    + eexists. split; [done|]. simpl. rewrite lookup_delete_eq.
      repeat split; try done.
      * intros k Hne. by apply lookup_delete_ne.
      * pose proof (map_size_delete key g) as Hs. rewrite Hk in Hs.
        assert (size g ≠ 0%nat).
        { intros Hz. apply map_size_empty_inv in Hz. subst g.
          by rewrite lookup_empty in Hk. }
        lia.
    + eexists. split; [done|]. simpl. rewrite Hk.
      repeat split; try done. lia.
  - eexists. by repeat split.
Qed.

(** A [Delete] undoes a [Set] of the same key: after the two calls the
    world is what [Delete] alone would have made it, hence the very world
    one started from when the key was absent. *)
Theorem Set_then_Delete w key d now w1 :
  Cache_Set key d now w = Ok (tt, w1) →
  Delete key w1 = Delete key w ∧
  (map_index (items (cache w)) key = None → Delete key w1 = Ok (tt, w)).
Proof.
  intros He. destruct w as [[t [g|] b] rs]; unfold_call; [|done].
  injection He as <-. simpl. rewrite lookup_insert_eq, delete_insert_eq.
  destruct (g !! key) as [item|] eqn:Hk.
  - split; [done|]. done.
  - rewrite delete_id by done. by split.
Qed.

(** [Clear] returns in every world and leaves an allocated, empty map (a
    nil map stays nil): every key is absent, the size is zero, every [Get]
    answers [(nil, false)], and [ttl], the mode and the reapers are as
    before. *)
Theorem Clear_empties w :
  ∃ w1, Clear w = Ok (tt, w1) ∧
    items (cache w1) = (if items (cache w) is Some _ then Some ∅ else None) ∧
    (∀ k, map_index (items (cache w1)) k = None) ∧
    map_len (items (cache w1)) = 0 ∧
    (∀ k now, Get k now w1 = Ok ((None, false), w1)) ∧
    ttl (cache w1) = ttl (cache w) ∧
    isTTL (cache w1) = isTTL (cache w) ∧
    reapers w1 = reapers w.
Proof.
  destruct w as [[t [g|] b] rs]; unfold Clear, bind, get_cache, put_cache; simpl.
  - pose proof (map_range_filter (λ _ _, true) g) as Hf. simpl in Hf.
    assert (filter (λ kv : string * Item V, true = false) g = ∅) as Hemp.
    { apply map_empty. intros k. apply map_lookup_filter_None. right.
      by intros item _. }
    rewrite Hemp in Hf. unfold map_range in Hf. injection Hf as Hf.
    eexists. split; [done|]. simpl. rewrite Hf.
    repeat split; try done.
    intros k now. unfold Get, bind, get_cache, ret. simpl.
    rewrite lookup_empty. by destruct b.
  - eexists. split; [done|]. simpl. repeat split; try done.
    intros k now. unfold Get, bind, get_cache, ret. simpl. by destruct b.
Qed.

(** ** What a read leaves alone *)

(** [Get] never adds or removes a key, in either mode and whatever it
    answers: an expired entry it reports as absent stays in the map, and the
    size, [ttl], the mode and the reapers are as before. *)
Theorem Get_keeps_keys w key now r w1 :
  Get key now w = Ok (r, w1) →
  (∀ k, is_Some (map_index (items (cache w1)) k)
        ↔ is_Some (map_index (items (cache w)) k)) ∧
  (∀ k, k ≠ key →
     map_index (items (cache w1)) k = map_index (items (cache w)) k) ∧
  map_len (items (cache w1)) = map_len (items (cache w)) ∧
  ttl (cache w1) = ttl (cache w) ∧
  isTTL (cache w1) = isTTL (cache w) ∧
  reapers w1 = reapers w.
Proof.
  intros He. destruct w as [[t [g|] b] rs].
  - rewrite Get_allocated in He.
    destruct (g !! key) as [item|] eqn:Hk; [|by injection He as <- <-].
    destruct (b && expired now item); [by injection He as <- <-|].
    injection He as <- <-. destruct b; [|done]. cbn [cache items map_index map_len].
    repeat split; try done.
    + destruct (decide (k = key)) as [->|Hne].
      * by rewrite Hk.
      * by rewrite lookup_insert_ne.
    + destruct (decide (k = key)) as [->|Hne].
      * by rewrite lookup_insert_eq.
      * by rewrite lookup_insert_ne.
    + intros k Hne. by rewrite lookup_insert_ne.
    + by rewrite map_size_insert_Some.
  - unfold Get, bind, get_cache, ret in He. simpl in He.
    by destruct b; injection He as <- <-.
Qed.

Lemma exec_payload_origin now op w r w1 key item1 :
  exec now op w = Ok (r, w1) →
  writes_key op key = false →
  map_index (items (cache w1)) key = Some item1 →
  ∃ item, map_index (items (cache w)) key = Some item ∧ data item = data item1.
Proof.
  intros He Hw Hk. destruct op; simpl in Hw.
  - apply bool_decide_eq_false in Hw.
    call_cases; rewrite lookup_insert_ne in Hk by done; eauto.
  - apply bool_decide_eq_false in Hw.
    call_cases; rewrite lookup_insert_ne in Hk by done; eauto.
  - call_cases; eauto;
      (destruct (decide (key = key0)) as [->|Hne];
       [rewrite lookup_insert_eq in Hk | rewrite lookup_insert_ne in Hk by done]);
      simplify_eq; eauto.
  - call_cases; eauto.
  - destruct (exec_entry_origin _ _ _ _ _ _ _ He Hk) as [?|[[? ?]|[? ?]]]; eauto;
      exfalso; clear Hw;
      unfold exec, Clear, bind, get_cache, put_cache, ret in He; simplify_eq;
      destruct w as [[t [g|] b] rs]; simpl in *; try done;
      pose proof (map_range_lookup (λ _ _, true) g key) as Hl; simpl in Hl;
      rewrite Hl in Hk; by destruct (g !! key).
  - call_cases; eauto;
      (destruct (decide (key = key0)) as [->|Hne];
       [rewrite lookup_delete_eq in Hk | rewrite lookup_delete_ne in Hk by done]);
      simplify_eq; eauto.
  - unfold exec, ttlCleanup, bind, get_cache, put_cache, ret in He.
    destruct w as [[t [g|] []] rs]; simpl in *; simplify_eq; simpl in *; eauto.
    pose proof (map_range_lookup (λ _ item, expired now item) g key) as Hl.
    simpl in Hl. rewrite Hl in Hk.
    destruct (g !! key) as [item'|]; [|done].
    destruct (expired now item'); [done|]. eauto.
Qed.

(** Only a [Set] or [SetTTL] of a key puts a payload under it: along a
    trace that does not write the key, whatever else it calls, an entry
    found under the key at the end was there at the start with the same
    payload. *)
Theorem payload_only_written tr w w1 key item1 :
  run tr w = Ok w1 →
  forallb (λ ev, negb (writes_key ev.2 key)) tr = true →
  map_index (items (cache w1)) key = Some item1 →
  ∃ item, map_index (items (cache w)) key = Some item ∧ data item = data item1.
Proof.
  revert w. induction tr as [|[now op] tr IH]; simpl; intros w Hrun Hnw Hk.
  - injection Hrun as ->. by exists item1.
  - apply andb_true_iff in Hnw as [Hop Htr]. apply negb_true_iff in Hop.
    destruct (exec now op w) as [[r w0]|] eqn:He; [|done].
    destruct (IH w0 Hrun Htr Hk) as (item0 & Hk0 & Hd0).
    destruct (exec_payload_origin _ _ _ _ _ _ _ He Hop Hk0) as (item & Hkw & Hd).
    exists item. split; [done|]. congruence.
Qed.

Lemma exec_write_payload now op w r w1 key item1 :
  exec now op w = Ok (r, w1) →
  writes_key op key = true →
  map_index (items (cache w1)) key = Some item1 →
  match op with
  | OSet _ d | OSetTTL _ d _ => data item1 = d
  | _ => False
  end.
Proof.
  intros He Hw Hk. destruct op; simpl in Hw; try done;
    apply bool_decide_eq_true in Hw; subst;
    call_cases; rewrite lookup_insert_eq in Hk; by simplify_eq.
Qed.

Lemma last_written_inv key tr :
  ∀ w acc w1,
    (∀ item, map_index (items (cache w)) key = Some item → acc = Some (data item)) →
    run tr w = Ok w1 →
    ∀ item, map_index (items (cache w1)) key = Some item →
            last_written key tr acc = Some (data item).
Proof.
  induction tr as [|[now op] tr IH]; simpl; intros w acc w1 Hacc Hrun.
  - injection Hrun as <-. done.
  - destruct (exec now op w) as [[r w0]|] eqn:He; [|done].
    apply (IH w0 _ w1); [|done].
    intros item Hk. destruct (writes_key op key) eqn:Hw.
    + pose proof (exec_write_payload _ _ _ _ _ _ _ He Hw Hk) as Hd.
      destruct op; simpl in Hw; try done; rewrite Hw; by rewrite Hd.
    + destruct (exec_payload_origin _ _ _ _ _ _ _ He Hw Hk) as (item0 & Hk0 & <-).
      destruct op; simpl in Hw; try rewrite Hw; by apply Hacc.
Qed.

(** A [Get] never returns a stale or foreign payload: on a cache driven
    from a constructor by any trace, a [Get] that finds its key returns the
    payload of the latest [Set] or [SetTTL] of that key in the trace. *)
Theorem Get_returns_last_written init tr w key now d w1 :
  (init = NewCache ∨ ∃ duration, init = NewTTLCache duration) →
  run tr init = Ok w →
  Get key now w = Ok ((d, true), w1) →
  last_written key tr None = Some d.
Proof.
  intros Hinit Hrun HG.
  assert (∃ item, map_index (items (cache w)) key = Some item ∧ data item = d)
    as (item & Hk & <-).
  { clear -HG. unfold Get, bind, get_cache, ret, put_cache in HG.
    destruct (map_index (items (cache w)) key) as [item|]; [|by destruct (isTTL _)].
    exists item. split; [done|].
    destruct (isTTL _); [destruct (expired now item)|]; by simplify_eq. }
  eapply last_written_inv; [|done..].
  intros item0 Hk0.
  destruct Hinit as [->|[duration ->]]; [done|].
  by rewrite NewTTLCache_unfold in Hk0.
Qed.

(** ** Unbounded mode is not touched by reads or by the reaper *)

(** In unbounded mode any sequence of [Get], [Count] and reaper ticks, at
    any instants, returns the world it started from: nothing is evicted
    because time passes. *)
Theorem unbounded_passive_noop w tr :
  isTTL (cache w) = false →
  forallb (λ ev, is_passive ev.2) tr = true →
  run tr w = Ok w.
Proof.
  intros Ht. induction tr as [|[now op] tr IH]; simpl; [done|].
  intros [Hp Htr]%andb_true_iff. specialize (IH Htr).
  destruct op; simpl in Hp; try done;
    unfold exec, Get, Count, ttlCleanup, bind, get_cache, ret; rewrite Ht;
    [by destruct (map_index _ _)|done..].
Qed.

(** ** The reaper and the readers *)

(** A tick takes nothing away that a reader could still see: a [Get] made
    at the tick's instant or later answers the same with and without the
    tick.  A second tick at the same instant changes nothing. *)
Theorem tick_invisible_to_Get w now later key :
  now ≤ later →
  ∃ w1 r w2 w3,
    ttlCleanup now w = Ok (tt, w1) ∧
    Get key later w = Ok (r, w2) ∧
    Get key later w1 = Ok (r, w3) ∧
    ttlCleanup now w1 = Ok (tt, w1).
Proof.
  intros Hle. destruct w as [[t [g|] b] rs].
  - destruct b.
    + set (g' := filter (λ kv : string * Item V, expired now kv.2 = false) g).
      exists {| cache := {| ttl := t; items := Some g'; isTTL := true |};
                reapers := rs |}.
      rewrite !ttlCleanup_allocated. fold g'.
      assert (filter (λ kv : string * Item V, expired now kv.2 = false) g' = g')
        as ->.
      { apply map_filter_id. intros i x Hx.
        by apply map_lookup_filter_Some in Hx as [_ ?]. }
      rewrite !Get_allocated.
      destruct (g !! key) as [item|] eqn:Hk.
      * destruct (expired now item) eqn:Hnow.
        -- assert (g' !! key = None) as ->.
           { apply map_lookup_filter_None. right. intros x Hx. simpl. congruence. }
           assert (expired later item = true) as ->.
           { unfold expired in *. destruct (expiresAt item); [|done].
             apply Z.ltb_lt in Hnow. apply Z.ltb_lt. lia. }
           simpl. (eexists _, _, _; repeat split; reflexivity).
        -- assert (g' !! key = Some item) as ->.
           { by apply map_lookup_filter_Some. }
           destruct (true && expired later item); (eexists _, _, _; repeat split; reflexivity).
      * assert (g' !! key = None) as ->.
        { apply map_lookup_filter_None. by left. }
        (eexists _, _, _; repeat split; reflexivity).
    + unfold ttlCleanup, bind, get_cache, ret. cbn [cache isTTL].
      exists {| cache := {| ttl := t; items := Some g; isTTL := false |};
                reapers := rs |}.
      rewrite !Get_allocated.
      destruct (g !! key); (eexists _, _, _; repeat split; reflexivity).
  - unfold ttlCleanup, Get, bind, get_cache, put_cache, ret. simpl.
    destruct b; (eexists _, _, _, _; repeat split; reflexivity).
Qed.

(** ** When a call panics *)

(** A call panics exactly when it is a [Set] or a [SetTTL] made on a cache
    whose map is nil; [Get], [Count], [Clear], [Delete] and the reaper's
    tick return whatever the cache. *)
Theorem call_panics_iff now op w :
  (∃ msg, exec now op w = Panic msg) ↔
  (items (cache w) = None ∧ is_write op = true).
Proof.
  split.
  - intros [msg He]. call_cases; done.
  - intros [Hn Hw]. destruct w as [[t m b] rs]. simpl in Hn. subst m.
    destruct op; simpl in Hw; try done; unfold_call; destruct b; by eexists.
Qed.

(** ** Sliding expiration *)

(** One call of a trace that keeps [key] alive. *)
Lemma kept_alive_step t g rs key d e now op :
  g !! key = Some {| data := d; expiresAt := Some e |} →
  kept_alive t key e [(now, op)] = true →
  ∃ r g',
    exec now op
      {| cache := {| ttl := t; items := Some g; isTTL := true |}; reapers := rs |}
    = Ok (r, {| cache := {| ttl := t; items := Some g'; isTTL := true |};
                reapers := rs |}) ∧
    g' !! key = Some {| data := d;
                        expiresAt := Some (final_deadline t key e [(now, op)]) |} ∧
    (op = OGet key → r = RGet d true).
Proof.
  intros Hk Hka. destruct op as [k d'|k d' ttl'|k| | |k|]; simpl in Hka |- *.
  - rewrite andb_true_r in Hka. apply negb_true_iff, bool_decide_eq_false in Hka.
    unfold exec, bind. rewrite Cache_Set_allocated.
    eexists _, _. split; [done|]. by rewrite lookup_insert_ne.
  - rewrite andb_true_r in Hka. apply negb_true_iff, bool_decide_eq_false in Hka.
    unfold exec, bind. rewrite SetTTL_allocated.
    eexists _, _. split; [done|]. by rewrite lookup_insert_ne.
  - unfold exec, bind. rewrite Get_allocated. case_bool_decide as Hkk.
    + subst k. rewrite andb_true_r in Hka. apply Z.leb_le in Hka.
      rewrite Hk, expired_at, bool_decide_eq_false_2 by lia. simpl.
      eexists _, _. split; [done|]. by rewrite lookup_insert_eq.
    + destruct (g !! k) as [item|]; [destruct (true && expired now item)|];
        eexists _, _; (split; [done|]);
        (split; [by rewrite ?lookup_insert_ne by done | congruence]).
  - eexists _, _. by split.
  - done.
  - rewrite andb_true_r in Hka. apply negb_true_iff, bool_decide_eq_false in Hka.
    unfold exec, Delete, bind, get_cache, put_cache, ret. simpl.
    destruct (g !! k); eexists _, _; (split; [done|]); [|done].
    by rewrite lookup_delete_ne.
  - rewrite andb_true_r in Hka. apply Z.leb_le in Hka.
    unfold exec, bind. rewrite ttlCleanup_allocated.
    eexists _, _. split; [done|]. split; [|done].
    apply map_lookup_filter_Some. split; [done|]. simpl.
    rewrite expired_at. apply bool_decide_eq_false_2. lia.
Qed.

Lemma kept_alive_cons t key e now op tr :
  kept_alive t key e ((now, op) :: tr) =
  kept_alive t key e [(now, op)] &&
  kept_alive t key (final_deadline t key e [(now, op)]) tr.
Proof.
  destruct op; simpl; rewrite ?andb_true_r; try done.
  by case_bool_decide.
Qed.

(** An entry that is read often enough never expires and is never reaped.
    In TTL mode, along a trace in which every [Get] of the key and every
    tick comes no later than the key's current deadline (a [Get] of the key
    moving it to its instant plus [ttl]), and which does not overwrite,
    delete or clear the key: every call returns, every [Get] of the key
    returns its payload, and the entry is still in the map at the end with
    the deadline the last [Get] gave it. *)
Theorem sliding_expiration w key d e tr :
  isTTL (cache w) = true →
  map_index (items (cache w)) key = Some {| data := d; expiresAt := Some e |} →
  kept_alive (ttl (cache w)) key e tr = true →
  ∃ log w1,
    run_log tr w = Ok (log, w1) ∧
    Forall2 (λ ev r, ev.2 = OGet key → r = RGet d true) tr log ∧
    map_index (items (cache w1)) key
      = Some {| data := d;
                expiresAt := Some (final_deadline (ttl (cache w)) key e tr) |} ∧
    isTTL (cache w1) = true ∧
    ttl (cache w1) = ttl (cache w).
Proof.
  destruct w as [[t [g|] b] rs]; cbn [cache isTTL items ttl map_index];
    [|done]. intros ->. revert g e.
  induction tr as [|[now op] tr IH]; intros g e Hk Hka.
  - eexists _, _. split; [done|]. by repeat split.
  - rewrite kept_alive_cons in Hka. apply andb_true_iff in Hka as [Hka1 Hka2].
    destruct (kept_alive_step t g rs key d e now op Hk Hka1)
      as (r & g' & He & Hk' & Hr).
    destruct (IH g' _ Hk' Hka2) as (log & w1 & Hrun & Hlog & Hk1 & Ht1 & Httl1).
    exists (r :: log), w1. cbn [run_log]. rewrite He, Hrun.
    split; [done|]. split; [by constructor|]. split; [|done].
    rewrite Hk1. do 3 f_equal. by destruct op; simpl; try case_bool_decide.
Qed.

End Composition.

(** * Progress of the goroutines *)

Section Progress.

Implicit Types (g : Goroutine) (r : Runtime) (m : Method) (a : Action)
  (s : Status) (gs : list Goroutine) (i j : nat) (ms : list Method)
  (sched : list nat).

(** ** Counting goroutines by status *)

Lemma count_status_cons s g gs :
  count_status s (g :: gs) =
  ((if decide (g_status g = s) then 1 else 0) + count_status s gs)%nat.
Proof. unfold count_status. rewrite filter_cons. by case_decide. Qed.

Lemma count_status_insert s gs i g g' :
  gs !! i = Some g →
  (count_status s (<[i := g']> gs) + (if decide (g_status g = s) then 1 else 0)
   = count_status s gs + (if decide (g_status g' = s) then 1 else 0))%nat.
Proof.
  revert i. induction gs as [|g0 gs IH]; intros [|i] Hi; simpl in *; try done.
  - injection Hi as ->. rewrite !count_status_cons. lia.
  - rewrite !count_status_cons. specialize (IH i Hi). lia.
Qed.

Lemma count_status_pos s gs i g :
  gs !! i = Some g → g_status g = s → (1 ≤ count_status s gs)%nat.
Proof.
  revert i. induction gs as [|g0 gs IH]; intros [|i] Hi Hs; simpl in *;
    try done; rewrite count_status_cons.
  - injection Hi as ->. rewrite decide_True by done. lia.
  - specialize (IH i Hi Hs). lia.
Qed.

Lemma count_status_two s gs i j g g' :
  i ≠ j → gs !! i = Some g → gs !! j = Some g' →
  g_status g = s → g_status g' = s → (2 ≤ count_status s gs)%nat.
Proof.
  revert i j. induction gs as [|g0 gs IH]; intros [|i] [|j] Hne Hi Hj Hs Hs';
    simpl in *; try done; rewrite count_status_cons.
  - injection Hi as ->. rewrite decide_True by done.
    pose proof (count_status_pos _ _ _ _ Hj Hs'). lia.
  - injection Hj as ->. rewrite decide_True by done.
    pose proof (count_status_pos _ _ _ _ Hi Hs). lia.
  - assert (i ≠ j) as Hne' by congruence.
    specialize (IH i j Hne' Hi Hj Hs Hs'). lia.
Qed.

Lemma count_status_exists s gs :
  (1 ≤ count_status s gs)%nat → ∃ i g, gs !! i = Some g ∧ g_status g = s.
Proof.
  induction gs as [|g0 gs IH]; [unfold count_status; simpl; lia|].
  rewrite count_status_cons. case_decide as Hs.
  - intros _. by exists 0%nat, g0.
  - intros Hpos. destruct IH as (i & g & Hi & Hg); [lia|]. by exists (S i), g.
Qed.

Lemma count_status_wake s gs :
  count_status s (wake <$> gs) =
  match s with
  | Parked => 0%nat
  | Reader => (count_status Reader gs + count_status Parked gs)%nat
  | _ => count_status s gs
  end.
Proof.
  induction gs as [|g0 gs IH]; [by destruct s|].
  rewrite fmap_cons, !count_status_cons, IH. unfold wake.
  destruct s, (g_status g0) eqn:E; simpl; rewrite ?E;
    repeat case_decide; try done; lia.
Qed.

Lemma count_status_boot s ms : s ≠ Idle → count_status s (go <$> ms) = 0%nat.
Proof.
  intros Hs. induction ms as [|m ms IH]; [done|].
  rewrite fmap_cons, count_status_cons, IH. simpl. by rewrite decide_False.
Qed.

(** ** The budget *)

Lemma budget_insert gs i g g' :
  gs !! i = Some g →
  (sum_list (weight <$> <[i := g']> gs) + weight g
   = sum_list (weight <$> gs) + weight g')%nat.
Proof.
  unfold sum_list. revert i.
  induction gs as [|g0 gs IH]; intros [|i] Hi; try done.
  - injection Hi as ->. cbn [insert list_insert]. rewrite !fmap_cons.
    cbn [sum_list_with]. unfold id. lia.
  - change (<[S i:=g']> (g0 :: gs)) with (g0 :: <[i:=g']> gs).
    rewrite !fmap_cons. cbn [sum_list_with].
    specialize (IH i Hi). unfold id in *. lia.
Qed.

Lemma budget_wake gs :
  (sum_list (weight <$> (wake <$> gs)) ≤ sum_list (weight <$> gs))%nat.
Proof.
  unfold sum_list. induction gs as [|g0 gs IH]; [done|].
  rewrite !fmap_cons. cbn [sum_list_with]. unfold id at 1 3.
  assert (weight (wake g0) ≤ weight g0)%nat; [|lia].
  unfold wake, weight. destruct (g_status g0) eqn:E; simpl; rewrite ?E; try lia.
  destruct (g_todo g0); simpl; lia.
Qed.

(** ** The programs of the guarded methods *)

Lemma guarded_program m :
  is_guarded m = true →
  (guard m = Writing ∧
   ∃ accs, program m = Lock :: accs ++ [Unlock] ∧ lock_free accs) ∨
  (guard m = Reading ∧
   ∃ accs, program m = RLock :: accs ++ [RUnlock] ∧ lock_free accs).
Proof.
  destruct m; intros Hg; try done.
  - left. split; [done|]. by exists [MapWrite]; split; [|repeat constructor].
  - left. split; [done|]. by exists [MapWrite]; split; [|repeat constructor].
  - right. split; [done|].
    by exists [MapRead; ItemRead; ItemWrite]; split; [|repeat constructor].
  - right. split; [done|]. by exists [MapRead]; split; [|repeat constructor].
  - left. split; [done|]. eexists. split; [done|].
    apply lock_free_loop. by repeat constructor.
  - left. split; [done|]. eexists. split; [done|].
    apply lock_free_loop. by repeat constructor.
Qed.

Lemma reader_never_writes m : guard m = Reading → MapWrite ∉ program m.
Proof.
  destruct m; intros Hg; try done; simpl; intros Hin;
    repeat (apply elem_of_cons in Hin as [Hin|Hin]; [done|]);
    by apply elem_of_nil in Hin.
Qed.

(** ** One goroutine *)

Lemma g_inv_go m : is_guarded m = true → g_inv (go m).
Proof. intros Hg. split; [done|]. split; [done|]. by left. Qed.

Lemma g_inv_wake g : g_inv g → g_inv (wake g).
Proof.
  intros (Hg & Hsub & Hst). unfold wake.
  destruct (g_status g) eqn:E; try (by split; [|split; [|rewrite E]]).
  destruct Hst as [Hrd (accs & Htd & Hlf)].
  split; [done|]. cbn [g_todo g_meth g_status]. split.
  - rewrite Htd in Hsub |- *. simpl. intros a Ha. apply Hsub. by right.
  - split; [done|]. exists accs. by rewrite Htd.
Qed.

(** What the moving goroutine looks like afterwards, for each way
    [go_step] lets it move. *)
Lemma g_inv_moved g a rest :
  g_inv g → g_todo g = a :: rest →
  match a, g_status g with
  | Lock, Idle =>
      g_inv {| g_meth := g_meth g; g_status := Writer; g_todo := rest |} ∧
      g_inv {| g_meth := g_meth g; g_status := Draining; g_todo := a :: rest |}
  | Lock, Draining =>
      g_inv {| g_meth := g_meth g; g_status := Writer; g_todo := rest |}
  | Unlock, Writer =>
      g_inv {| g_meth := g_meth g; g_status := Idle; g_todo := rest |}
  | RLock, Idle =>
      g_inv {| g_meth := g_meth g; g_status := Reader; g_todo := rest |} ∧
      g_inv {| g_meth := g_meth g; g_status := Parked; g_todo := a :: rest |}
  | RUnlock, Reader =>
      g_inv {| g_meth := g_meth g; g_status := Idle; g_todo := rest |}
  | (MapRead | MapWrite | ItemRead | ItemWrite), (Idle | Reader | Writer) =>
      g_inv {| g_meth := g_meth g; g_status := g_status g; g_todo := rest |}
  | _, _ => True
  end.
Proof.
  intros (Hg & Hsub & Hst) Htd.
  assert (rest ⊆ program (g_meth g)) as Hsub'.
  { intros x Hx. apply Hsub. rewrite Htd. by right. }
  destruct (guarded_program _ Hg) as [[Hw (body & Hp & Hlf)]|[Hrd (body & Hp & Hlf)]].
  - (* a writer's method *)
    destruct (g_status g) eqn:E.
    + destruct Hst as [Hst|Hst]; [|congruence].
      rewrite Htd, Hp in Hst. injection Hst as -> ->.
      split; (split; [done|]); cbn [g_todo g_meth g_status].
      * split; [done|]. split; [done|]. by exists body.
      * split; [by rewrite <- Htd|]. split; [done|]. by exists body.
    + destruct Hst as [Hst _]. congruence.
    + destruct Hst as [_ (accs & Hacc & Hlf')]. rewrite Htd in Hacc.
      injection Hacc as -> ->.
      split; [done|]. cbn [g_todo g_meth g_status].
      split; [done|]. split; [done|]. by exists accs.
    + destruct Hst as [Hst _]. congruence.
    + destruct Hst as [_ (accs & Hacc & Hlf')]. rewrite Htd in Hacc.
      destruct accs as [|a' accs]; simpl in Hacc; injection Hacc as -> ->.
      * split; [done|]. split; [done|]. by right.
      * inversion Hlf' as [|? ? Ha Hrest]; subst.
        destruct a'; simpl in Ha; try done;
          (split; [done|]); cbn [g_todo g_meth g_status];
          (split; [done|]); (split; [done|]); by exists accs.
  - (* a reader's method *)
    destruct (g_status g) eqn:E.
    + destruct Hst as [Hst|Hst]; [|congruence].
      rewrite Htd, Hp in Hst. injection Hst as -> ->.
      split; (split; [done|]); cbn [g_todo g_meth g_status].
      * split; [done|]. split; [done|]. by exists body.
      * split; [by rewrite <- Htd|]. split; [done|]. by exists body.
    + destruct Hst as [_ (accs & Hacc & Hlf')]. rewrite Htd in Hacc.
      by injection Hacc as -> ->.
    + destruct Hst as [Hst _]. congruence.
    + destruct Hst as [_ (accs & Hacc & Hlf')]. rewrite Htd in Hacc.
      destruct accs as [|a' accs]; simpl in Hacc; injection Hacc as -> ->.
      * split; [done|]. split; [done|]. by right.
      * inversion Hlf' as [|? ? Ha Hrest]; subst.
        destruct a'; simpl in Ha; try done;
          (split; [done|]); cbn [g_todo g_meth g_status];
          (split; [done|]); (split; [done|]); by exists accs.
    + destruct Hst as [Hst _]. congruence.
Qed.

(** ** The invariant of the runtime *)

Lemma boot_rt_inv ms : forallb is_guarded ms = true → rt_inv (boot ms).
Proof.
  intros Hg. unfold rt_inv, boot. cbn [goroutines active w_holder].
  rewrite !count_status_boot by done. repeat split; try done.
  apply Forall_fmap, Forall_forall. intros m Hm. apply g_inv_go.
  rewrite forallb_forall in Hg. apply Hg. by apply list_elem_of_In.
Qed.

(** The counts after goroutine [i] has become [g']. *)
Ltac recount i g g' Hi Hst :=
  pose proof (count_status_insert Reader _ i g g' Hi) as HcR;
  pose proof (count_status_insert Writer _ i g g' Hi) as HcW;
  pose proof (count_status_insert Draining _ i g g' Hi) as HcD;
  pose proof (count_status_insert Parked _ i g g' Hi) as HcP;
  cbn [g_status] in HcR, HcW, HcD, HcP;
  rewrite ?Hst in HcR, HcW, HcD, HcP;
  repeat case_decide; try done.

Lemma go_step_rt_inv i r r' : rt_inv r → go_step i r = Some r' → rt_inv r'.
Proof.
  intros (Hgs & Hact & Hw & Hex). unfold go_step.
  destruct (goroutines r !! i) as [g|] eqn:Hi; [|done].
  destruct (g_todo g) as [|a rest] eqn:Htd; [done|].
  pose proof (Forall_lookup_1 _ _ _ _ Hgs Hi) as Hg.
  pose proof (g_inv_moved g a rest Hg Htd) as Hmv.
  unfold rt_inv.
  destruct a, (g_status g) eqn:Hst; try done;
    (* [RUnlock], and the accesses to the map and to the items *)
    try (solve [ intros [= <-]; cbn [goroutines active w_holder];
                 (split; [by apply Forall_insert|]);
                 match goal with
                 | |- context [<[_ := ?g']> _] => recount i g g' Hi Hst
                 end;
                 destruct (w_holder r); repeat split; lia ]).
  - (* Lock, from Idle *)
    destruct Hmv as [HmvW HmvD].
    destruct (w_holder r) eqn:Hh; [done|].
    destruct (Nat.eqb_spec (active r) 0) as [Hz|Hnz]; intros [= <-];
      cbn [goroutines active w_holder];
      (split; [by apply Forall_insert|]).
    + recount i g ({| g_meth := g_meth g; g_status := Writer; g_todo := rest |}) Hi Hst.
      repeat split; lia.
    + recount i g ({| g_meth := g_meth g; g_status := Draining;
                     g_todo := Lock :: rest |}) Hi Hst.
      repeat split; lia.
  - (* Lock, from Draining *)
    destruct (Nat.eqb_spec (active r) 0) as [Hz|Hnz]; [|done]. intros [= <-].
    cbn [goroutines active w_holder]. split; [by apply Forall_insert|].
    recount i g ({| g_meth := g_meth g; g_status := Writer; g_todo := rest |}) Hi Hst.
    pose proof (count_status_pos Draining _ _ _ Hi Hst).
    destruct (w_holder r); repeat split; lia.
  - (* Unlock *)
    intros [= <-]. cbn [goroutines active w_holder]. split.
    { apply Forall_fmap. eapply Forall_impl; [by apply Forall_insert|].
      intros g' Hg'. by apply g_inv_wake. }
    rewrite !count_status_wake.
    recount i g ({| g_meth := g_meth g; g_status := Idle; g_todo := rest |}) Hi Hst.
    pose proof (count_status_pos Writer _ _ _ Hi Hst).
    destruct (w_holder r); repeat split; lia.
  - (* RLock *)
    destruct Hmv as [HmvR HmvP].
    destruct (w_holder r) eqn:Hh; intros [= <-];
      cbn [goroutines active w_holder];
      (split; [by apply Forall_insert|]).
    + recount i g ({| g_meth := g_meth g; g_status := Parked;
                     g_todo := RLock :: rest |}) Hi Hst.
      repeat split; lia.
    + recount i g ({| g_meth := g_meth g; g_status := Reader; g_todo := rest |}) Hi Hst.
      repeat split; lia.
Qed.

Lemma go_reachable_inv ms r :
  forallb is_guarded ms = true → go_reachable ms r → rt_inv r.
Proof.
  intros Hg. induction 1 as [|r i r' _ IH Hs]; [by apply boot_rt_inv|].
  by eapply go_step_rt_inv.
Qed.

Lemma go_schedule_reachable ms sched r :
  go_schedule sched (boot ms) = Some r → go_reachable ms r.
Proof.
  assert (∀ r0, go_reachable ms r0 → go_schedule sched r0 = Some r →
                go_reachable ms r) as H; [|apply H; constructor].
  induction sched as [|i sched IH]; simpl; intros r0 Hr Hs.
  - by injection Hs as <-.
  - destruct (go_step i r0) as [r1|] eqn:He; [|done].
    eapply IH; [|done]. by eapply go_next.
Qed.

Lemma go_schedule_app sched1 sched2 r :
  go_schedule (sched1 ++ sched2) r =
  match go_schedule sched1 r with
  | Some r' => go_schedule sched2 r'
  | None => None
  end.
Proof.
  revert r. induction sched1 as [|i sched1 IH]; intros r; simpl; [done|].
  by destruct (go_step i r).
Qed.

(** ** Every move spends budget *)

Lemma go_step_budget i r r' :
  go_step i r = Some r' → (budget r' < budget r)%nat.
Proof.
  unfold go_step, budget.
  destruct (goroutines r !! i) as [g|] eqn:Hi; [|done].
  destruct (g_todo g) as [|a rest] eqn:Htd; [done|].
  pose proof (λ g', budget_insert _ i g g' Hi) as Hb.
  assert (weight g = 2 * S (length rest) -
                     match g_status g with Parked | Draining => 1 | _ => 0 end)%nat
    as Hwg by (unfold weight; by rewrite Htd).
  destruct a, (g_status g) eqn:Hst; try done;
    repeat case_match; try done; intros [= <-]; cbn [goroutines];
    try (etrans; [apply Nat.lt_succ_r, budget_wake|]; apply Nat.succ_lt_mono);
    match goal with
    | |- context [<[_ := ?g']> _] =>
        specialize (Hb g'); rewrite Hwg in Hb;
        let w' := eval cbv [weight g_status g_todo] in (weight g') in
        change (weight g') with w' in Hb
    end;
    cbn [length] in Hb; lia.
Qed.

Lemma go_schedule_budget sched r r' :
  go_schedule sched r = Some r' → (length sched + budget r' ≤ budget r)%nat.
Proof.
  revert r. induction sched as [|i sched IH]; intros r; simpl.
  - intros [= ->]. lia.
  - destruct (go_step i r) as [r1|] eqn:Hs; [|done]. intros Hrun.
    pose proof (go_step_budget _ _ _ Hs). specialize (IH _ Hrun). lia.
Qed.

(** ** Who can move *)

(** A goroutine that holds the mutex is never blocked. *)
Lemma go_step_holder r i g :
  goroutines r !! i = Some g → g_inv g →
  g_status g = Reader ∨ g_status g = Writer →
  ∃ r', go_step i r = Some r'.
Proof.
  intros Hi (_ & _ & Hst) Hs. unfold go_step. rewrite Hi.
  destruct Hs as [Hs|Hs]; rewrite Hs in Hst |- *;
    destruct Hst as [_ (accs & -> & Hlf)];
    (destruct accs as [|a accs]; simpl; [by eexists|]);
    inversion Hlf as [|? ? Ha _]; subst;
    destruct a; simpl in Ha; try done; by eexists.
Qed.

(** With nobody holding or waiting for the mutex, a goroutine that has not
    returned takes it or goes on. *)
Lemma go_step_idle r i g :
  goroutines r !! i = Some g → g_inv g → g_status g = Idle →
  g_todo g ≠ [] → w_holder r = None →
  ∃ r', go_step i r = Some r'.
Proof.
  intros Hi (Hg & _ & Hst) Hs Htd Hw. unfold go_step. rewrite Hi, Hw, Hs.
  rewrite Hs in Hst. destruct Hst as [Hst|Hst]; [|done]. rewrite Hst.
  destruct (guarded_program _ Hg) as [[_ (body & -> & _)]|[_ (body & -> & _)]].
  - destruct (Nat.eqb (active r) 0); by eexists.
  - by eexists.
Qed.

Lemma go_progress r :
  rt_inv r →
  (∃ i g, goroutines r !! i = Some g ∧ g_todo g ≠ []) →
  ∃ i r', go_step i r = Some r'.
Proof.
  intros (Hgs & Hact & Hw & Hex) (i & g & Hi & Htd).
  assert (∀ j g', goroutines r !! j = Some g' → g_inv g') as Hinv.
  { intros j g' Hj. by eapply Forall_lookup_1. }
  destruct (decide (1 ≤ count_status Reader (goroutines r))%nat) as [HR|HR].
  { (* a reader holds the mutex *)
    destruct (count_status_exists _ _ HR) as (j & g' & Hj & Hs).
    exists j. eapply go_step_holder; eauto. }
  destruct (decide (1 ≤ count_status Writer (goroutines r))%nat) as [HW|HW].
  { (* a writer holds the mutex *)
    destruct (count_status_exists _ _ HW) as (j & g' & Hj & Hs).
    exists j. eapply go_step_holder; eauto. }
  destruct (w_holder r) as [k|] eqn:Hk.
  - (* a writer is draining, and no reader is left *)
    destruct (count_status_exists Draining (goroutines r)) as (j & g' & Hj & Hs);
      [lia|].
    exists j. destruct (Hinv j g' Hj) as (_ & _ & Hst). rewrite Hs in Hst.
    destruct Hst as [_ (accs & Htd' & _)].
    unfold go_step. rewrite Hj, Htd', Hs.
    assert (active r = 0%nat) as -> by lia. by eexists.
  - (* the mutex is free *)
    exists i. eapply go_step_idle; eauto.
    destruct (g_status g) eqn:Hs; try done.
    + pose proof (count_status_pos Parked _ _ _ Hi Hs). lia.
    + pose proof (count_status_pos Draining _ _ _ Hi Hs). lia.
    + pose proof (count_status_pos Reader _ _ _ Hi Hs). lia.
    + pose proof (count_status_pos Writer _ _ _ Hi Hs). lia.
Qed.

(** When every goroutine has returned the mutex is free. *)
Lemma returned_free r : rt_inv r → returned r → w_holder r = None ∧ active r = 0%nat.
Proof.
  intros (Hgs & Hact & Hw & Hex) Hret.
  assert (∀ s, s ≠ Idle → count_status s (goroutines r) = 0%nat) as Hnone.
  { intros s Hs. destruct (count_status s (goroutines r)) as [|n] eqn:Hn; [done|].
    destruct (count_status_exists s (goroutines r)) as (i & g & Hi & Hg); [lia|].
    pose proof (Forall_lookup_1 _ _ _ _ Hgs Hi) as (_ & _ & Hst).
    pose proof (Hret i g Hi) as Htd. rewrite Hg, Htd in Hst.
    destruct s; try done; destruct Hst as [_ (accs & Heq & _)];
      by destruct accs. }
  rewrite (Hnone Reader) in Hact by done.
  rewrite (Hnone Writer), (Hnone Draining) in Hw by done.
  split; [|done]. destruct (w_holder r); [lia|done].
Qed.

(** A goroutine about to access the map holds the mutex; about to write
    the map, it holds it as the writer. *)
Lemma map_access_status r i g a rest :
  rt_inv r → goroutines r !! i = Some g → g_todo g = a :: rest →
  is_map_access a = true →
  (g_status g = Reader ∨ g_status g = Writer) ∧
  (a = MapWrite → g_status g = Writer).
Proof.
  intros (Hgs & _) Hi Htd Ha.
  pose proof (Forall_lookup_1 _ _ _ _ Hgs Hi) as (Hg & Hsub & Hst).
  destruct (g_status g) eqn:Hs.
  - exfalso. destruct Hst as [Hst|Hst]; [|congruence].
    rewrite Htd in Hst.
    destruct (guarded_program _ Hg) as [[_ (body & Hp & _)]|[_ (body & Hp & _)]];
      rewrite Hp in Hst; injection Hst as -> _; done.
  - exfalso. destruct Hst as [_ (accs & Heq & _)]. rewrite Htd in Heq.
    by injection Heq as -> _.
  - exfalso. destruct Hst as [_ (accs & Heq & _)]. rewrite Htd in Heq.
    by injection Heq as -> _.
  - split; [by left|]. intros ->. exfalso.
    destruct Hst as [Hrd _]. apply (reader_never_writes _ Hrd).
    apply Hsub. rewrite Htd. by left.
  - split; [by right|done].
Qed.

Lemma go_completes ms (Hg : forallb is_guarded ms = true) n :
  ∀ r, go_reachable ms r → (budget r ≤ n)%nat →
       ∃ sched r', go_schedule sched r = Some r' ∧ returned r'.
Proof.
  induction n as [|n IH]; intros r Hr Hn.
  - exists [], r. split; [done|]. intros i g Hi.
    destruct (g_todo g) as [|a rest] eqn:Htd; [done|]. exfalso.
    destruct (go_progress r) as (j & r' & Hs).
    { by eapply go_reachable_inv. }
    { exists i, g. split; [done|]. by rewrite Htd. }
    pose proof (go_step_budget _ _ _ Hs). lia.
  - destruct (decide (Forall (λ g, g_todo g = []) (goroutines r))) as [Hall|Hex].
    + exists [], r. split; [done|]. intros i g Hi.
      by apply (Forall_lookup_1 _ _ _ _ Hall Hi).
    + apply not_Forall_Exists in Hex; [|apply _].
      apply Exists_exists in Hex as (g & Hin & Htd).
      apply list_elem_of_lookup in Hin as [i Hi].
      destruct (go_progress r) as (j & r1 & Hs).
      { by eapply go_reachable_inv. }
      { by exists i, g. }
      pose proof (go_step_budget _ _ _ Hs).
      destruct (IH r1) as (sched & r' & Hrun & Hret).
      { by eapply go_next. }
      { lia. }
      exists (j :: sched), r'. simpl. by rewrite Hs.
Qed.

(** No deadlock and no racing map access.  For goroutines running guarded
    methods (all but [Delete]) over [sync.RWMutex]: in every state they can
    reach, a goroutine about to write the map is the only one about to
    access it, so the runtime's check for concurrent map access cannot
    fire; and as long as one goroutine has not returned, one of them can
    move. *)
Theorem no_deadlock ms r :
  forallb is_guarded ms = true →
  go_reachable ms r →
  (∀ i j gi gj a resti restj,
     i ≠ j →
     goroutines r !! i = Some gi → g_todo gi = MapWrite :: resti →
     goroutines r !! j = Some gj → g_todo gj = a :: restj →
     is_map_access a = false) ∧
  ((∃ i g, goroutines r !! i = Some g ∧ g_todo g ≠ []) →
   ∃ i r', go_step i r = Some r').
Proof.
  intros Hg Hr. pose proof (go_reachable_inv ms r Hg Hr) as Hinv. split.
  - intros i j gi gj a resti restj Hne Hi Htdi Hj Htdj.
    destruct (is_map_access a) eqn:Ha; [exfalso|done].
    destruct (map_access_status r i gi MapWrite resti Hinv Hi Htdi eq_refl)
      as [_ Hwi]. specialize (Hwi eq_refl).
    destruct (map_access_status r j gj a restj Hinv Hj Htdj Ha) as [Hsj _].
    destruct Hinv as (_ & Hact & Hw & Hex).
    destruct Hsj as [Hsj|Hsj].
    + pose proof (count_status_pos Reader _ _ _ Hj Hsj).
      pose proof (count_status_pos Writer _ _ _ Hi Hwi). lia.
    + pose proof (count_status_two Writer _ _ _ _ _ Hne Hi Hj Hwi Hsj).
      destruct (w_holder r); lia.
  - by apply go_progress.
Qed.

(** Every batch of concurrent calls of guarded methods runs to completion
    and gives the mutex back: whatever the goroutines have done so far, they
    can go on until each has returned, and then nobody holds or waits for
    the mutex.  No interleaving makes more moves than the budget of the
    batch, two per action. *)
Theorem calls_complete ms sched r :
  forallb is_guarded ms = true →
  go_schedule sched (boot ms) = Some r →
  (length sched ≤ budget (boot ms))%nat ∧
  ∃ sched' r',
    go_schedule (sched ++ sched') (boot ms) = Some r' ∧
    returned r' ∧ w_holder r' = None ∧ active r' = 0%nat.
Proof.
  intros Hg Hrun. pose proof (go_schedule_budget _ _ _ Hrun) as Hlen.
  split; [lia|].
  pose proof (go_schedule_reachable _ _ _ Hrun) as Hr.
  destruct (go_completes ms Hg _ r Hr (le_n _)) as (sched' & r' & Hrun' & Hret).
  exists sched', r'. rewrite go_schedule_app, Hrun.
  split; [done|]. split; [done|].
  apply returned_free; [|done].
  apply (go_reachable_inv ms); [done|].
  apply (go_schedule_reachable _ (sched ++ sched')).
  by rewrite go_schedule_app, Hrun.
Qed.

End Progress.

(** * Concrete runs of the composed calls *)

Section MoreRuns.

Local Open Scope string_scope.

Lemma unbounded_world_allocated : allocated unbounded_world.
Proof. by eexists. Qed.

Lemma ttl_world_allocated : allocated ttl_world.
Proof. by eexists. Qed.

Lemma Set_unbounded_world :
  Cache_Set "k" (Some "v") 3 unbounded_world = Ok (tt, written_world).
Proof. vm_compute. reflexivity. Qed.

Lemma Get_ttl_world :
  Get "x" (800 * Millisecond) ttl_world = Ok ((Some "1", true), touched_world).
Proof. vm_compute. reflexivity. Qed.

Lemma Set_then_Get_witness :
  allocated unbounded_world ∧ isTTL (cache unbounded_world) = false ∧
  ∃ w1, Cache_Set "k" (Some "v") 3 unbounded_world = Ok (tt, w1) ∧
        Get "k" 9 w1 = Ok ((Some "v", true), w1).
Proof.
  split; [exact unbounded_world_allocated|]. split; [reflexivity|].
  destruct (Set_then_Get unbounded_world "k" (Some "v") 3 9
              unbounded_world_allocated) as (w1 & HS & Hu & _).
  exists w1. split; [exact HS | exact (Hu eq_refl)].
Defined.

Lemma SetTTL_then_Get_witness :
  allocated unbounded_world ∧ (5 ≤ 3 + 2 * Second)%Z ∧
  ∃ w1 w2, SetTTL "k" (Some "v") (2 * Second) 3 unbounded_world = Ok (tt, w1) ∧
           Get "k" 5 w1 = Ok ((Some "v", true), w2) ∧
           map_index (items (cache w2)) "k"
             = Some {| data := Some "v"; expiresAt := Some (5 + 0) |}.
Proof.
  assert (5 ≤ 3 + 2 * Second)%Z as Hle by (unfold Second; lia).
  split; [exact unbounded_world_allocated|]. split; [exact Hle|].
  destruct (SetTTL_then_Get unbounded_world "k" (Some "v") (2 * Second) 3 5
              unbounded_world_allocated) as (w1 & HS & _ & _ & Hhit & _).
  destruct (Hhit Hle) as (w2 & HG & Hk).
  exists w1, w2. split; [exact HS|]. split; [exact HG | exact Hk].
Defined.

Lemma Set_frame_witness :
  Cache_Set "k" (Some "v") 3 unbounded_world = Ok (tt, written_world) ∧
  map_index (items (cache written_world)) "a"
    = map_index (items (cache unbounded_world)) "a" ∧
  isTTL (cache written_world) = isTTL (cache unbounded_world).
Proof.
  split; [exact Set_unbounded_world|].
  destruct (Set_frame unbounded_world "k" (Some "v") 3 written_world
              Set_unbounded_world) as (Hk & _ & Ht & _).
  split; [|exact Ht]. apply Hk. discriminate.
Defined.

Lemma Set_overwrites_witness :
  Cache_Set "k" (Some "v") 3 unbounded_world = Ok (tt, written_world) ∧
  Cache_Set "k" (Some "u") 4 written_world
    = Cache_Set "k" (Some "u") 4 unbounded_world.
Proof.
  split; [exact Set_unbounded_world|].
  destruct (Set_overwrites unbounded_world "k" (Some "v") (Some "u") 3 4) as [H _].
  exact (H written_world Set_unbounded_world).
Defined.

Lemma Delete_removes_witness :
  "k" ≠ "a" ∧
  ∃ w1, Delete "a" written_world = Ok (tt, w1) ∧
        map_index (items (cache w1)) "a" = None ∧
        map_index (items (cache w1)) "k" = map_index (items (cache written_world)) "k".
Proof.
  split; [discriminate|].
  destruct (Delete_removes written_world "a") as (w1 & HD & Ha & Hk & _).
  exists w1. split; [exact HD|]. split; [exact Ha|]. apply Hk. discriminate.
Defined.

Lemma Set_then_Delete_witness :
  Cache_Set "k" (Some "v") 3 unbounded_world = Ok (tt, written_world) ∧
  map_index (items (cache unbounded_world)) "k" = None ∧
  Delete "k" written_world = Ok (tt, unbounded_world).
Proof.
  split; [exact Set_unbounded_world|].
  assert (map_index (items (cache unbounded_world)) "k" = None) as Hk
    by (vm_compute; reflexivity).
  split; [exact Hk|].
  destruct (Set_then_Delete unbounded_world "k" (Some "v") 3 written_world
              Set_unbounded_world) as [_ H].
  exact (H Hk).
Defined.

Lemma Get_keeps_keys_witness :
  Get "x" (800 * Millisecond) ttl_world = Ok ((Some "1", true), touched_world) ∧
  map_len (items (cache touched_world)) = map_len (items (cache ttl_world)).
Proof.
  split; [exact Get_ttl_world|].
  destruct (Get_keeps_keys ttl_world "x" (800 * Millisecond) _ touched_world
              Get_ttl_world) as (_ & _ & Hlen & _).
  exact Hlen.
Defined.

Lemma payload_only_written_witness :
  run [(800 * Millisecond, OGet "x"); (900 * Millisecond, OTick);
       (900 * Millisecond, OSet "y" (Some "2")); (900 * Millisecond, ODelete "y")]
      ttl_world = Ok touched_world ∧
  ∃ item, map_index (items (cache ttl_world)) "x" = Some item ∧
          data item = Some "1".
Proof.
  assert (run [(800 * Millisecond, OGet "x"); (900 * Millisecond, OTick);
               (900 * Millisecond, OSet "y" (Some "2"));
               (900 * Millisecond, ODelete "y")]
              ttl_world = Ok touched_world) as Hrun
    by (vm_compute; reflexivity).
  split; [exact Hrun|].
  assert (map_index (items (cache touched_world)) "x"
            = Some {| data := Some "1";
                      expiresAt := Some (800 * Millisecond + Second) |}) as Hk
    by (vm_compute; reflexivity).
  assert (forallb (λ ev, negb (writes_key ev.2 "x"))
            [(800 * Millisecond, OGet "x"); (900 * Millisecond, OTick);
             (900 * Millisecond, OSet "y" (Some "2"));
             (900 * Millisecond, ODelete (V:=string) "y")] = true) as Hnw
    by (vm_compute; reflexivity).
  exact (payload_only_written _ ttl_world touched_world "x" _ Hrun Hnw Hk).
Defined.

Lemma Get_returns_last_written_witness :
  run [(0, OSet "a" (Some "0")); (1, OSet "a" (Some "1"))] NewCache
    = Ok unbounded_world ∧
  Get "a" 7 unbounded_world = Ok ((Some "1", true), unbounded_world) ∧
  last_written "a" [(0, OSet "a" (Some "0")); (1, OSet "a" (Some "1"))] None
    = Some (Some "1").
Proof.
  assert (run [(0, OSet "a" (Some "0")); (1, OSet "a" (Some "1"))] NewCache
            = Ok unbounded_world) as Hrun by (vm_compute; reflexivity).
  assert (Get "a" 7 unbounded_world = Ok ((Some "1", true), unbounded_world))
    as HG by (vm_compute; reflexivity).
  split; [exact Hrun|]. split; [exact HG|].
  exact (Get_returns_last_written NewCache _ _ _ _ _ _
           (or_introl eq_refl) Hrun HG).
Defined.

Lemma unbounded_passive_noop_witness :
  isTTL (cache unbounded_world) = false ∧
  run [(5, OGet "a"); (3600 * Second, OTick); (3600 * Second, OCount);
       (7200 * Second, OGet "a")] unbounded_world
    = Ok unbounded_world.
Proof.
  split; [reflexivity|].
  exact (unbounded_passive_noop unbounded_world
           [(5, OGet "a"); (3600 * Second, OTick); (3600 * Second, OCount);
            (7200 * Second, OGet "a")] eq_refl eq_refl).
Defined.

Lemma tick_invisible_to_Get_witness :
  (2 * Second ≤ 3 * Second)%Z ∧
  ∃ w1 r w2 w3,
    ttlCleanup (2 * Second) ttl_world = Ok (tt, w1) ∧
    Get "x" (3 * Second) ttl_world = Ok (r, w2) ∧
    Get "x" (3 * Second) w1 = Ok (r, w3).
Proof.
  assert (2 * Second ≤ 3 * Second)%Z as Hle by (unfold Second; lia).
  split; [exact Hle|].
  destruct (tick_invisible_to_Get ttl_world (2 * Second) (3 * Second) "x" Hle)
    as (w1 & r & w2 & w3 & HT & HG & HG' & _).
  exists w1, r, w2, w3. split; [exact HT|]. split; [exact HG | exact HG'].
Defined.

Lemma call_panics_iff_witness :
  (items (cache zero_world) = None ∧ is_write (OSet "k" (Some "v")) = true) ∧
  ∃ msg, exec 0 (OSet "k" (Some "v")) zero_world = Panic msg.
Proof.
  assert (items (cache zero_world) = None ∧ is_write (OSet "k" (Some "v")) = true)
    as H by (split; reflexivity).
  split; [exact H|].
  exact (proj2 (call_panics_iff 0 (OSet "k" (Some "v")) zero_world) H).
Defined.

Lemma sliding_expiration_witness :
  isTTL (cache ttl_world) = true ∧
  kept_alive Second "x" Second
    [(800 * Millisecond, OGet "x"); (1001 * Millisecond, OTick);
     (1700 * Millisecond, OGet "x"); (2001 * Millisecond, OTick);
     (2600 * Millisecond, OGet (V:=string) "x")] = true ∧
  ∃ log w1,
    run_log [(800 * Millisecond, OGet "x"); (1001 * Millisecond, OTick);
             (1700 * Millisecond, OGet "x"); (2001 * Millisecond, OTick);
             (2600 * Millisecond, OGet "x")] ttl_world = Ok (log, w1) ∧
    map_index (items (cache w1)) "x"
      = Some {| data := Some "1";
                expiresAt := Some (2600 * Millisecond + Second) |}.
Proof.
  assert (map_index (items (cache ttl_world)) "x"
            = Some {| data := Some "1"; expiresAt := Some Second |}) as Hk
    by (vm_compute; reflexivity).
  split; [reflexivity|]. split; [vm_compute; reflexivity|].
  destruct (sliding_expiration ttl_world "x" (Some "1") Second
              [(800 * Millisecond, OGet "x"); (1001 * Millisecond, OTick);
               (1700 * Millisecond, OGet "x"); (2001 * Millisecond, OTick);
               (2600 * Millisecond, OGet "x")]
              eq_refl Hk ltac:(vm_compute; reflexivity))
    as (log & w1 & Hrun & _ & Hk1 & _).
  exists log, w1. split; [exact Hrun | exact Hk1].
Defined.

(** A reader that arrives while a writer waits is admitted only by that
    writer's [Unlock]: [Get] holds the mutex, [Set] asks for it, [Count]
    comes last; [Get] finishes, then [Set] runs, and its [Unlock] lets
    [Count] in. *)
Example writer_goes_first :
  go_schedule [0; 0; 0; 0]%nat contended_runtime
    = Some {| w_holder := Some 1%nat; active := 0;
              goroutines :=
                [ {| g_meth := mGet; g_status := Idle; g_todo := [] |};
                  {| g_meth := mSet; g_status := Draining; g_todo := program mSet |};
                  {| g_meth := mCount; g_status := Parked; g_todo := program mCount |} ] |} ∧
  go_schedule [0; 0; 0; 0; 2]%nat contended_runtime = None ∧
  go_schedule [0; 0; 0; 0; 1; 1; 1]%nat contended_runtime
    = Some {| w_holder := None; active := 1;
              goroutines :=
                [ {| g_meth := mGet; g_status := Idle; g_todo := [] |};
                  {| g_meth := mSet; g_status := Idle; g_todo := [] |};
                  {| g_meth := mCount; g_status := Reader;
                     g_todo := [MapRead; RUnlock] |} ] |}.
Proof. repeat split. Qed.

Lemma contended_runtime_reachable :
  go_reachable [mGet; mSet; mCount] contended_runtime.
Proof. apply (go_schedule_reachable _ [0; 1; 2]%nat). reflexivity. Qed.

Lemma no_deadlock_witness :
  forallb is_guarded [mGet; mSet; mCount] = true ∧
  go_reachable [mGet; mSet; mCount] contended_runtime ∧
  go_step 1 contended_runtime = None ∧
  go_step 2 contended_runtime = None ∧
  ∃ i r', go_step i contended_runtime = Some r'.
Proof.
  split; [reflexivity|]. split; [exact contended_runtime_reachable|].
  split; [reflexivity|]. split; [reflexivity|].
  destruct (no_deadlock [mGet; mSet; mCount] contended_runtime eq_refl
              contended_runtime_reachable) as [_ H].
  apply H.
  exists 2%nat, {| g_meth := mCount; g_status := Parked; g_todo := program mCount |}.
  split; [reflexivity | discriminate].
Defined.

Lemma calls_complete_witness :
  forallb is_guarded [mGet; mSet; mCount] = true ∧
  go_schedule [0; 1; 2]%nat (boot [mGet; mSet; mCount]) = Some contended_runtime ∧
  ∃ sched' r',
    go_schedule ([0; 1; 2]%nat ++ sched') (boot [mGet; mSet; mCount]) = Some r' ∧
    returned r' ∧ w_holder r' = None ∧ active r' = 0%nat.
Proof.
  split; [reflexivity|]. split; [reflexivity|].
  destruct (calls_complete [mGet; mSet; mCount] [0; 1; 2]%nat contended_runtime
              eq_refl eq_refl) as [_ H].
  exact H.
Defined.

End MoreRuns.
